(** * Fixed-income peer scoring: a shallow embedding of [scoring.py]

    The development follows the class [FIPeerScoring]: the five component
    scorers, the weighted aggregator, the peer finder and the peer-group
    builder.

    Conventions of the embedding.
    - A cell that may be missing (pandas [NaN], tested by [pd.isna]) is
      an [option]; [None] is the missing value.
    - Python numbers (weights, fee bands, overall scores) are exact
      rationals [Q]; the component scorers return the integer literals of
      the source, kept in [Z].  Floating-point rounding is not modelled;
      the worked scenario is evaluated in binary64 as well.
    - Strings are [string]; [str.lower] acts on the ASCII letters.
    - [print] appends a [Message] to a log, [raise] ends the computation
      with an [Exception]: both live in the monad [M].
    - A [pd.DataFrame] is the list of its rows, in row order. *)

From Stdlib Require Import ZArith QArith Qabs Qround Bool List String Ascii.
From Stdlib Require Import Lia Lqa Permutation Sorted PrimFloat.
Import ListNotations.

Local Open Scope Z_scope.

(** ** Strings *)

Module Str.

Definition lower_ascii (c : ascii) : ascii :=
  let n := nat_of_ascii c in
  if (Nat.leb 65 n && Nat.leb n 90)%bool then ascii_of_nat (n + 32) else c.

(** [s.lower()] *)
Fixpoint lower (s : string) : string :=
  match s with
  | EmptyString => EmptyString
  | String c r => String (lower_ascii c) (lower r)
  end.

(** [needle in hay] on two strings *)
Fixpoint contains (needle hay : string) : bool :=
  (String.prefix needle hay
   || match hay with
      | EmptyString => false
      | String _ r => contains needle r
      end)%bool.

End Str.

(** ** Numbers *)

Definition Qlt_bool (a b : Q) : bool := negb (Qle_bool b a).

(** Python's [round(x)] on an exact value: nearest integer, ties to even. *)
Definition round_half_even (q : Q) : Z :=
  let f := Qfloor q in
  let r := (q - inject_Z f)%Q in
  if Qlt_bool r (1 # 2) then f
  else if Qlt_bool (1 # 2) r then f + 1
  else if Z.even f then f else f + 1.

(** [round(x, 2)] *)
Definition round2 (q : Q) : Q := Qmake (round_half_even (q * 100)%Q) 100.

(** ** Output and failure *)

Inductive Exception : Type :=
| ValueError (msg : string)
| ZeroDivisionError.

Record SummaryStat : Type := {
  ss_fund_id : string;
  ss_fund_name : option string;
  ss_category : option string;
  ss_total_in_category : nat;
  ss_qualified_peers : nat;
  ss_avg_score : Q
}.

(** What the source writes with [print]. *)
Inductive Message : Type :=
| WarnWeightsNormalizing (total_weight : Q)
| WarnNoCategory (fund : string)
| NoComparableFunds (category : string)
| WarnFundNotFound (fund : string)
| Processing (name : option string) (category : option string)
| PeerGroupSummary (stats : list SummaryStat).

(** A computation either raises or returns, and in both cases leaves the
    messages printed so far. *)
Definition M (A : Type) : Type := ((Exception + A) * list Message)%type.

Definition ret {A} (a : A) : M A := (inr a, []).
Definition raise {A} (e : Exception) : M A := (inl e, []).
Definition print (m : Message) : M unit := (inr tt, [m]).

Definition bind {A B} (m : M A) (f : A -> M B) : M B :=
  match m with
  | (inl e, l) => (inl e, l)
  | (inr a, l) => let (r, l') := f a in (r, l ++ l')
  end.

Notation "x <- m ;; k" := (bind m (fun x => k))
  (at level 61, m at next level, right associativity).
Notation "m ;;; k" := (bind m (fun _ => k))
  (at level 61, right associativity).

(** Python's true division [a / b]. *)
Definition py_div (a b : Q) : M Q :=
  if Qeq_bool b 0 then raise ZeroDivisionError else ret (a / b)%Q.

(** ** Weights *)

Inductive Component : Type := Currency | Passive | Fee | Region | Sector.

(** The key order of the dictionaries [self.weights] and [scores]. *)
Definition components : list Component :=
  [Currency; Passive; Fee; Region; Sector].

Record Weights : Type := {
  w_currency : Q;
  w_passive : Q;
  w_fee : Q;
  w_region : Q;
  w_sector : Q
}.

Definition weight_of (w : Weights) (c : Component) : Q :=
  match c with
  | Currency => w_currency w
  | Passive => w_passive w
  | Fee => w_fee w
  | Region => w_region w
  | Sector => w_sector w
  end.

Definition set_weight (c : Component) (v : Q) (w : Weights) : Weights :=
  match c with
  | Currency => {| w_currency := v; w_passive := w_passive w; w_fee := w_fee w;
                   w_region := w_region w; w_sector := w_sector w |}
  | Passive => {| w_currency := w_currency w; w_passive := v; w_fee := w_fee w;
                  w_region := w_region w; w_sector := w_sector w |}
  | Fee => {| w_currency := w_currency w; w_passive := w_passive w; w_fee := v;
              w_region := w_region w; w_sector := w_sector w |}
  | Region => {| w_currency := w_currency w; w_passive := w_passive w;
                 w_fee := w_fee w; w_region := v; w_sector := w_sector w |}
  | Sector => {| w_currency := w_currency w; w_passive := w_passive w;
                 w_fee := w_fee w; w_region := w_region w; w_sector := v |}
  end.

(** [sum(self.weights.values())] *)
Definition sum_weights (w : Weights) : Q :=
  fold_left (fun acc c => (acc + weight_of w c)%Q) components 0%Q.

Record FIPeerScoring : Type := { weights : Weights }.

(** The normalising loop of [__init__]: every weight is divided by the
    total computed before the loop and multiplied by 100. *)
Fixpoint normalize_loop (keys : list Component) (total_weight : Q)
    (w : Weights) : M Weights :=
  match keys with
  | [] => ret w
  | key :: rest =>
      v <- py_div (weight_of w key) total_weight ;;
      normalize_loop rest total_weight (set_weight key (v * 100)%Q w)
  end.

(** [FIPeerScoring.__init__] *)
Definition init (currency_weight passive_weight fee_weight region_weight
                 sector_weight : Q) : M FIPeerScoring :=
  let w := {| w_currency := currency_weight; w_passive := passive_weight;
              w_fee := fee_weight; w_region := region_weight;
              w_sector := sector_weight |} in
  let total_weight := sum_weights w in
  if Qlt_bool (1 # 100) (Qabs (total_weight - 100)) then
    print (WarnWeightsNormalizing total_weight) ;;;
    w' <- normalize_loop components total_weight w ;;
    ret {| weights := w' |}
  else ret {| weights := w |}.

(** The defaults of [__init__]: 30, 10, 25, 20, 15. *)
Definition default_init : M FIPeerScoring := init 30 10 25 20 15.

(** ** Component scorers *)

Definition currency_score (fund1_currency fund2_currency : option string) : Z :=
  match fund1_currency, fund2_currency with
  | Some c1, Some c2 => if String.eqb c1 c2 then 100 else 0
  | _, _ => 25
  end.

Definition passive_score (fund1_passive fund2_passive : option bool) : Z :=
  match fund1_passive, fund2_passive with
  | Some p1, Some p2 => if Bool.eqb p1 p2 then 100 else 0
  | _, _ => 50
  end.

Definition score_map : list (Z * Z) :=
  [(0, 100); (1, 75); (2, 50); (3, 25); (4, 0)].

(** [score_map.get(key, default)]: a numeric key finds an entry when it
    is equal, as a number, to the entry's integer key. *)
Definition score_map_get (key : Q) (default : Z) : Z :=
  match find (fun kv => Qeq_bool (inject_Z (fst kv)) key) score_map with
  | Some kv => snd kv
  | None => default
  end.

Definition fee_band_score (fund1_band fund2_band : option Q) : Z :=
  match fund1_band, fund2_band with
  | Some b1, Some b2 =>
      let band_diff := Qabs (b1 - b2) in
      score_map_get band_diff 0
  | _, _ => 30
  end.

Definition region_similarity : list ((string * string) * Z) :=
  [ (("emerging", "other"), 40);
    (("other", "emerging"), 40);
    (("developed", "other"), 40);
    (("other", "developed"), 40);
    (("emerging", "developed"), 20);
    (("developed", "emerging"), 20) ]%string.

Definition region_similarity_get (key : string * string) (default : Z) : Z :=
  match find (fun kv => (String.eqb (fst (fst kv)) (fst key)
                         && String.eqb (snd (fst kv)) (snd key))%bool)
             region_similarity with
  | Some kv => snd kv
  | None => default
  end.

Definition region_score (fund1_region fund2_region : option string) : Z :=
  match fund1_region, fund2_region with
  | Some r1, Some r2 =>
      let r1 := Str.lower r1 in
      let r2 := Str.lower r2 in
      if String.eqb r1 r2 then 100
      else region_similarity_get (r1, r2) 0
  | _, _ => 30
  end.

Definition related_sectors : list (string * list string) :=
  [ ("government", ["sovereign"; "municipal"; "agency"]);
    ("corporate", ["investment grade"; "high yield"; "credit"]);
    ("securitized", ["mbs"; "abs"; "cmbs"]);
    ("mixed", ["multi-sector"; "diversified"; "aggregate"]) ]%string.

(** The two nested loops of [sector_score]; reaching [return 60] is the
    existence of a group and of a related term that pass both tests. *)
Definition sectors_related (s1 s2 : string) : bool :=
  existsb (fun entry =>
             ((Str.contains (fst entry) s1 || Str.contains (fst entry) s2)
              && existsb (fun related =>
                            Str.contains related s1 || Str.contains related s2)
                         (snd entry))%bool)
          related_sectors.

Definition sector_score (fund1_sector fund2_sector : option string) : Z :=
  match fund1_sector, fund2_sector with
  | Some s1, Some s2 =>
      let s1 := Str.lower s1 in
      let s2 := Str.lower s2 in
      if String.eqb s1 s2 then 100
      else if sectors_related s1 s2 then 60 else 0
  | _, _ => 30
  end.

(** ** Funds and the aggregator *)

Record Fund : Type := {
  fund_id : string;
  fund_name : option string;
  morningstar_category : option string;
  currency : option string;
  is_passive : option bool;
  fee_band : option Q;
  region : option string;
  primary_sector : option string
}.

Record Scores : Type := {
  s_currency : Z;
  s_passive : Z;
  s_fee : Z;
  s_region : Z;
  s_sector : Z
}.

Definition score_of (s : Scores) (c : Component) : Z :=
  match c with
  | Currency => s_currency s
  | Passive => s_passive s
  | Fee => s_fee s
  | Region => s_region s
  | Sector => s_sector s
  end.

(** [sum(scores[c] * self.weights[c] / 100 for c in scores)] *)
Definition weighted_sum (w : Weights) (s : Scores) : Q :=
  fold_left (fun acc c =>
               (acc + inject_Z (score_of s c) * weight_of w c / 100)%Q)
            components 0%Q.

(** The same sum on binary64 numbers, the values Python computes with:
    scores and weights are listed in key order. *)
Definition weighted_sum_binary64 (ws ss : list float) : float :=
  fold_left (fun acc sw => (acc + fst sw * snd sw / 100)%float)
            (combine ss ws) 0%float.

Definition calculate_peer_score (self : FIPeerScoring) (fund1 fund2 : Fund)
    : Q * Scores :=
  let scores :=
    {| s_currency := currency_score (currency fund1) (currency fund2);
       s_passive := passive_score (is_passive fund1) (is_passive fund2);
       s_fee := fee_band_score (fee_band fund1) (fee_band fund2);
       s_region := region_score (region fund1) (region fund2);
       s_sector := sector_score (primary_sector fund1) (primary_sector fund2) |} in
  let overall_score := weighted_sum (weights self) scores in
  (overall_score, scores).

(** ** Peer finder *)

(** One row of the table returned by [score_peers_for_fund].  The
    component scores are integers, which [round(v, 2)] leaves as they
    are. *)
Record PeerResult : Type := {
  r_fund_id : string;
  r_fund_name : option string;
  r_morningstar_category : string;
  peer_score : Q;
  r_currency : option string;
  r_is_passive : option bool;
  r_fee_band : option Q;
  r_region : option string;
  r_primary_sector : option string;
  r_scores : Scores
}.

Definition score_ge (a b : PeerResult) : Prop :=
  (peer_score b <= peer_score a)%Q.

(** [df.sort_values('peer_score', ascending=False)].  pandas sorts with
    its default algorithm, which fixes the result up to the order of rows
    with equal keys; the development relies on the contract only. *)
Class SortValues : Type := {
  sort_values : list PeerResult -> list PeerResult;
  sort_values_perm : forall l, Permutation l (sort_values l);
  sort_values_sorted : forall l, StronglySorted score_ge (sort_values l)
}.

(** Truth value of a cell in a condition: the missing value [NaN] is
    true. *)
Definition truthy (v : option bool) : bool :=
  match v with
  | Some b => b
  | None => true
  end.

(** [column == value] on a cell that may be missing *)
Definition cell_eqb (cell : option string) (v : string) : bool :=
  match cell with
  | Some c => String.eqb c v
  | None => false
  end.

(** [column != True] on a cell that may be missing *)
Definition cell_ne_true (cell : option bool) : bool :=
  match cell with
  | Some true => false
  | _ => true
  end.

(** The rows whose [fund_id] is the identifier looked up. *)
Definition rows_of (fid : string) (df : list Fund) : list Fund :=
  filter (fun f => String.eqb (fund_id f) fid) df.

(** The candidate table [same_category_funds], after the optional
    passive filter. *)
Definition same_category_funds (target_fund : Fund) (target_fund_id : string)
    (target_category : string) (all_funds_df : list Fund)
    (exclude_passive : bool) : list Fund :=
  let same_category :=
    filter (fun f => (cell_eqb (morningstar_category f) target_category
                      && negb (String.eqb (fund_id f) target_fund_id))%bool)
           all_funds_df in
  if (exclude_passive && negb (truthy (is_passive target_fund)))%bool
  then filter (fun f => cell_ne_true (is_passive f)) same_category
  else same_category.

(** The body of the scoring loop: one result row per candidate. *)
Definition score_row (self : FIPeerScoring) (target_fund : Fund)
    (target_category : string) (row : Fund) : PeerResult :=
  let '(overall_score, component_scores) :=
    calculate_peer_score self target_fund row in
  {| r_fund_id := fund_id row;
     r_fund_name := fund_name row;
     r_morningstar_category := target_category;
     peer_score := round2 overall_score;
     r_currency := currency row;
     r_is_passive := is_passive row;
     r_fee_band := fee_band row;
     r_region := region row;
     r_primary_sector := primary_sector row;
     r_scores := component_scores |}.

Definition not_found_msg (target_fund_id : string) : string :=
  ("Fund " ++ target_fund_id ++ " not found in dataset")%string.

Section PeerFinder.

Context {sorter : SortValues}.

Definition score_peers_for_fund (self : FIPeerScoring)
    (target_fund_id : string) (all_funds_df : list Fund)
    (exclude_passive : bool) : M (list PeerResult) :=
  match rows_of target_fund_id all_funds_df with
  | [] => raise (ValueError (not_found_msg target_fund_id))
  | target_fund :: _ =>
      match morningstar_category target_fund with
      | None => print (WarnNoCategory target_fund_id) ;;; ret []
      | Some target_category =>
          let candidates :=
            same_category_funds target_fund target_fund_id target_category
                                all_funds_df exclude_passive in
          match candidates with
          | [] => print (NoComparableFunds target_category) ;;; ret []
          | _ :: _ =>
              let results :=
                map (score_row self target_fund target_category) candidates in
              ret (sort_values results)
          end
      end
  end.

(** ** Peer group builder *)

Record ScoreDistribution : Type := {
  d_90_100 : nat;
  d_80_89 : nat;
  d_70_79 : nat;
  d_below_70 : nat
}.

(** A peer-group record.  The record of a target without peers has the
    four keys of [NoPeers] only. *)
Inductive PeerGroup : Type :=
| NoPeers (name : option string) (category : option string)
| Peers (name : option string) (category : option string)
        (peer_count : nat) (avg_peer_score : Q) (peers : list PeerResult)
        (category_total_funds : nat) (score_distribution : ScoreDistribution).

Definition group_peers (g : PeerGroup) : list PeerResult :=
  match g with
  | NoPeers _ _ => []
  | Peers _ _ _ _ peers _ _ => peers
  end.

Definition group_peer_count (g : PeerGroup) : nat :=
  match g with
  | NoPeers _ _ => 0%nat
  | Peers _ _ n _ _ _ _ => n
  end.

(** [df.head(n)]: the first [n] rows, or all but the last [-n] rows when
    [n] is negative. *)
Definition head {A} (n : Z) (l : list A) : list A :=
  if 0 <=? n then firstn (Z.to_nat n) l
  else firstn (List.length l - Z.to_nat (- n)) l.

(** [column.mean()] of a table with at least one row *)
Definition mean (l : list Q) : Q :=
  (fold_left Qplus l 0 / inject_Z (Z.of_nat (List.length l)))%Q.

Definition count {A} (p : A -> bool) (l : list A) : nat :=
  List.length (filter p l).

Definition qualifies (min_score : Q) (r : PeerResult) : bool :=
  Qle_bool min_score (peer_score r).

Definition score_distribution_of (peer_scores_df : list PeerResult)
    : ScoreDistribution :=
  {| d_90_100 := count (fun r => Qle_bool 90 (peer_score r)) peer_scores_df;
     d_80_89 := count (fun r => (Qle_bool 80 (peer_score r)
                                 && Qlt_bool (peer_score r) 90)%bool)
                      peer_scores_df;
     d_70_79 := count (fun r => (Qle_bool 70 (peer_score r)
                                 && Qlt_bool (peer_score r) 80)%bool)
                      peer_scores_df;
     d_below_70 := count (fun r => Qlt_bool (peer_score r) 70) peer_scores_df |}.

(** The dictionary [peer_groups]: keys in insertion order, an assignment
    to an existing key replaces its value in place. *)
Definition Dict : Type := list (string * PeerGroup).

Fixpoint dict_set (k : string) (v : PeerGroup) (d : Dict) : Dict :=
  match d with
  | [] => [(k, v)]
  | (k', v') :: rest =>
      if String.eqb k' k then (k, v) :: rest else (k', v') :: dict_set k v rest
  end.

Fixpoint dict_get (k : string) (d : Dict) : option PeerGroup :=
  match d with
  | [] => None
  | (k', v') :: rest => if String.eqb k' k then Some v' else dict_get k rest
  end.

(** The record built for a target whose peer table is [peer_scores_df]. *)
Definition peer_group_of (name category : option string)
    (peer_scores_df : list PeerResult) (min_score : Q) (max_peers : Z)
    : PeerGroup :=
  match peer_scores_df with
  | [] => NoPeers name category
  | _ :: _ =>
      let qualified_peers :=
        head max_peers (filter (qualifies min_score) peer_scores_df) in
      Peers name category
            (List.length qualified_peers)
            (match qualified_peers with
             | [] => 0
             | _ :: _ => round2 (mean (map peer_score qualified_peers))
             end)
            qualified_peers
            (List.length peer_scores_df + 1)
            (score_distribution_of peer_scores_df)
  end.

Definition summary_of (fid : string) (name category : option string)
    (peer_scores_df : list PeerResult) (g : PeerGroup) : list SummaryStat :=
  match g with
  | NoPeers _ _ => []
  | Peers _ _ n avg _ total _ =>
      [ {| ss_fund_id := fid; ss_fund_name := name; ss_category := category;
           ss_total_in_category := total; ss_qualified_peers := n;
           ss_avg_score := avg |} ]
  end.

(** One iteration of the loop over [firm_fund_ids], on the state
    [(peer_groups, summary_stats)]. *)
Definition process_fund (self : FIPeerScoring) (all_funds_df : list Fund)
    (min_score : Q) (max_peers : Z) (exclude_passive : bool)
    (st : Dict * list SummaryStat) (fid : string)
    : M (Dict * list SummaryStat) :=
  match rows_of fid all_funds_df with
  | [] => print (WarnFundNotFound fid) ;;; ret st
  | fund_row :: _ =>
      let name := fund_name fund_row in
      let category := morningstar_category fund_row in
      print (Processing name category) ;;;
      peer_scores_df <-
        score_peers_for_fund self fid all_funds_df exclude_passive ;;
      let g := peer_group_of name category peer_scores_df min_score max_peers in
      ret (dict_set fid g (fst st),
           snd st ++ summary_of fid name category peer_scores_df g)
  end.

Fixpoint process_funds (self : FIPeerScoring) (all_funds_df : list Fund)
    (min_score : Q) (max_peers : Z) (exclude_passive : bool)
    (firm_fund_ids : list string) (st : Dict * list SummaryStat)
    : M (Dict * list SummaryStat) :=
  match firm_fund_ids with
  | [] => ret st
  | fid :: rest =>
      st' <- process_fund self all_funds_df min_score max_peers
                          exclude_passive st fid ;;
      process_funds self all_funds_df min_score max_peers exclude_passive
                    rest st'
  end.

Definition create_peer_groups_for_firm_funds (self : FIPeerScoring)
    (firm_fund_ids : list string) (all_funds_df : list Fund)
    (min_score : Q) (max_peers : Z) (exclude_passive : bool)
    (output_summary : bool) : M Dict :=
  st <- process_funds self all_funds_df min_score max_peers exclude_passive
                      firm_fund_ids ([], []) ;;
  (if (output_summary && negb (Nat.eqb (List.length (snd st)) 0))%bool
   then print (PeerGroupSummary (snd st))
   else ret tt) ;;;
  ret (fst st).

End PeerFinder.

(** ** A sorter: stable insertion by descending [peer_score] *)

Fixpoint insert_desc (x : PeerResult) (l : list PeerResult) : list PeerResult :=
  match l with
  | [] => [x]
  | y :: ys =>
      if Qle_bool (peer_score y) (peer_score x) then x :: y :: ys
      else y :: insert_desc x ys
  end.

Definition insertion_sort_desc (l : list PeerResult) : list PeerResult :=
  fold_right insert_desc [] l.

(** * Properties *)

(** ** Sorting *)

Lemma score_ge_trans (a b c : PeerResult) :
  score_ge a b -> score_ge b c -> score_ge a c.
Proof.
  unfold score_ge; intros Hab Hbc.
  now apply Qle_trans with (peer_score b).
Qed.

Lemma insert_desc_perm (x : PeerResult) (l : list PeerResult) :
  Permutation (x :: l) (insert_desc x l).
Proof.
  induction l as [|y ys IH]; simpl.
  - apply Permutation_refl.
  - destruct (Qle_bool (peer_score y) (peer_score x)).
    + apply Permutation_refl.
    + apply perm_trans with (y :: x :: ys).
      * apply perm_swap.
      * now apply perm_skip.
Qed.

Lemma insert_desc_sorted (x : PeerResult) (l : list PeerResult) :
  StronglySorted score_ge l -> StronglySorted score_ge (insert_desc x l).
Proof.
  induction 1 as [|y ys Hs IH Hy]; simpl.
  - repeat constructor.
  - destruct (Qle_bool (peer_score y) (peer_score x)) eqn:E.
    + apply Qle_bool_iff in E.
      constructor; [now constructor|].
      constructor; [exact E|].
      eapply Forall_impl; [|exact Hy].
      intros z Hz. now apply score_ge_trans with y.
    + constructor; [exact IH|].
      apply (Permutation_Forall (insert_desc_perm x ys)).
      constructor; [|exact Hy].
      unfold score_ge.
      destruct (Qlt_le_dec (peer_score x) (peer_score y)) as [Hlt|Hle].
      * now apply Qlt_le_weak.
      * apply Qle_bool_iff in Hle. congruence.
Qed.

Lemma insertion_sort_desc_perm (l : list PeerResult) :
  Permutation l (insertion_sort_desc l).
Proof.
  induction l as [|x xs IH]; simpl.
  - constructor.
  - apply perm_trans with (x :: insertion_sort_desc xs).
    + now apply perm_skip.
    + apply insert_desc_perm.
Qed.

Lemma insertion_sort_desc_sorted (l : list PeerResult) :
  StronglySorted score_ge (insertion_sort_desc l).
Proof.
  induction l as [|x xs IH]; simpl.
  - constructor.
  - now apply insert_desc_sorted.
Qed.

#[export] Instance insertion_sorter : SortValues := {|
  sort_values := insertion_sort_desc;
  sort_values_perm := insertion_sort_desc_perm;
  sort_values_sorted := insertion_sort_desc_sorted
|}.

(** ** The worked scenario *)

Definition fund_A : Fund :=
  {| fund_id := "A"; fund_name := Some "A"%string;
     morningstar_category := Some "X"%string;
     currency := Some "USD"%string; is_passive := Some false;
     fee_band := Some 2%Q; region := Some "developed"%string;
     primary_sector := Some "corporate"%string |}.

Definition fund_B : Fund :=
  {| fund_id := "B"; fund_name := Some "B"%string;
     morningstar_category := Some "X"%string;
     currency := Some "USD"%string; is_passive := Some false;
     fee_band := Some 3%Q; region := Some "developed"%string;
     primary_sector := Some "corporate"%string |}.

Definition default_scorer : FIPeerScoring :=
  {| weights := {| w_currency := 30; w_passive := 10; w_fee := 25;
                   w_region := 20; w_sector := 15 |} |}.

Lemma default_init_ok : default_init = (inr default_scorer, []).
Proof. reflexivity. Qed.

(** C1, as stated, fails: the overall score of the scenario is not
    98.75. *)
Lemma calculate_peer_score_scenario_not_98_75 :
  ~ (snd (calculate_peer_score default_scorer fund_A fund_B) =
       {| s_currency := 100; s_passive := 100; s_fee := 75;
          s_region := 100; s_sector := 100 |} /\
     (fst (calculate_peer_score default_scorer fund_A fund_B) == 9875 # 100)%Q).
Proof.
  intros [_ H]. vm_compute in H. discriminate H.
Qed.

(** C1, amended: with the default weights 30, 10, 25, 20, 15 the
    constructor succeeds without a warning, and for the funds A and B of
    the scenario [calculate_peer_score] returns the component scores
    currency 100, passive 100, fee 75, region 100, sector 100 and the
    overall score 100*0.3 + 100*0.1 + 75*0.25 + 100*0.2 + 100*0.15 =
    93.75; the sum is 93.75 in binary64 arithmetic too. *)
Theorem calculate_peer_score_scenario :
  default_init = (inr default_scorer, []) /\
  snd (calculate_peer_score default_scorer fund_A fund_B) =
    {| s_currency := 100; s_passive := 100; s_fee := 75;
       s_region := 100; s_sector := 100 |} /\
  (fst (calculate_peer_score default_scorer fund_A fund_B) == 9375 # 100)%Q /\
  weighted_sum_binary64 [30; 10; 25; 20; 15]%float
                        [100; 100; 75; 100; 100]%float = 93.75%float.
Proof.
  split; [reflexivity|]. split; [reflexivity|].
  split; [vm_compute; reflexivity|].
  vm_compute. reflexivity.
Qed.

(** ** Component scorers *)

Lemma Qeq_bool_inject_Z (i k : Z) (d : Q) :
  (d == inject_Z k)%Q -> Qeq_bool (inject_Z i) d = (i =? k).
Proof.
  intros Hd.
  destruct (Z.eqb_spec i k) as [->|Hne].
  - apply Qeq_bool_iff. now symmetry.
  - apply not_true_is_false. intros H.
    apply Qeq_bool_iff in H. rewrite Hd in H.
    apply Hne. exact (proj1 (inject_Z_injective i k) H).
Qed.

Lemma score_map_get_integer (d : Q) (k : Z) :
  (0 <= d)%Q -> (d == inject_Z k)%Q ->
  score_map_get d 0 = Z.max 0 (100 - 25 * k).
Proof.
  intros Hpos Hd.
  assert (Hk : 0 <= k).
  { rewrite Hd in Hpos. change 0%Q with (inject_Z 0) in Hpos.
    now rewrite <- Zle_Qle in Hpos. }
  unfold score_map_get, score_map, find, fst, snd.
  rewrite !Qeq_bool_inject_Z with (k := k) by exact Hd.
  destruct (Z.eqb_spec 0 k) as [<-|]; [reflexivity|].
  destruct (Z.eqb_spec 1 k) as [<-|]; [reflexivity|].
  destruct (Z.eqb_spec 2 k) as [<-|]; [reflexivity|].
  destruct (Z.eqb_spec 3 k) as [<-|]; [reflexivity|].
  destruct (Z.eqb_spec 4 k) as [<-|]; [reflexivity|].
  lia.
Qed.

Lemma score_map_get_other (d : Q) :
  (forall k : Z, ~ (d == inject_Z k)%Q) -> score_map_get d 0 = 0.
Proof.
  intros Hd.
  assert (H : forall i, Qeq_bool (inject_Z i) d = false).
  { intros i. apply not_true_is_false. intros E.
    apply Qeq_bool_iff in E. apply (Hd i). now symmetry. }
  unfold score_map_get, score_map; simpl.
  now rewrite !H.
Qed.

Lemma score_map_get_proper (d1 d2 : Q) (default : Z) :
  (d1 == d2)%Q -> score_map_get d1 default = score_map_get d2 default.
Proof.
  intros Hd.
  assert (H : forall i, Qeq_bool (inject_Z i) d1 = Qeq_bool (inject_Z i) d2).
  { intros i. apply eq_true_iff_eq.
    rewrite !Qeq_bool_iff. now rewrite Hd. }
  unfold score_map_get, score_map; simpl.
  now rewrite !H.
Qed.

Lemma score_map_get_range (d : Q) : 0 <= score_map_get d 0 <= 100.
Proof.
  unfold score_map_get, score_map; simpl.
  repeat match goal with
         | |- context [Qeq_bool ?a ?b] => destruct (Qeq_bool a b); simpl
         end; lia.
Qed.

(** The formula of the specification: 100 - 25 * difference, and 0 from
    difference 4 on. *)
Definition fee_band_formula (band_diff : Q) : Q :=
  if Qle_bool 4 band_diff then 0%Q else (100 - 25 * band_diff)%Q.

(** C2, as stated, fails: for the bands 1 and 1.5 the difference is 0.5,
    the formula gives 87.5 and the code returns 0. *)
Lemma fee_band_score_not_formula :
  fee_band_score (Some 1%Q) (Some (3 # 2)) = 0 /\
  (fee_band_formula (Qabs (1 - (3 # 2))) == 175 # 2)%Q /\
  ~ (inject_Z (fee_band_score (Some 1%Q) (Some (3 # 2)))
     == fee_band_formula (Qabs (1 - (3 # 2))))%Q.
Proof.
  split; [reflexivity|]. split; [reflexivity|].
  intros H. vm_compute in H. discriminate H.
Qed.

(** C2, amended: for every pair of non-missing numeric fee bands,
    [fee_band_score] returns 100 - 25 * k when the absolute difference is
    an integer k (so 100, 75, 50, 25 for the differences 0, 1, 2, 3),
    clipped to 0 from k = 4 on, and it returns 0 for every difference of
    at least 4 and for every difference that is not an integer. *)
Theorem fee_band_score_table (b1 b2 : Q) :
  (forall k : Z, (Qabs (b1 - b2) == inject_Z k)%Q ->
     fee_band_score (Some b1) (Some b2) = Z.max 0 (100 - 25 * k)) /\
  ((4 <= Qabs (b1 - b2))%Q -> fee_band_score (Some b1) (Some b2) = 0) /\
  ((forall k : Z, ~ (Qabs (b1 - b2) == inject_Z k)%Q) ->
     fee_band_score (Some b1) (Some b2) = 0).
Proof.
  unfold fee_band_score.
  split; [|split].
  - intros k Hk. apply score_map_get_integer; [apply Qabs_nonneg | exact Hk].
  - intros H4.
    unfold score_map_get, score_map, find, fst, snd.
    assert (H : forall i, i < 4 -> Qeq_bool (inject_Z i) (Qabs (b1 - b2)) = false).
    { intros i Hi. apply not_true_is_false. intros E.
      apply Qeq_bool_iff in E. rewrite <- E in H4.
      change 4%Q with (inject_Z 4) in H4.
      rewrite <- Zle_Qle in H4. lia. }
    rewrite (H 0), (H 1), (H 2), (H 3) by lia.
    now destruct (Qeq_bool (inject_Z 4) (Qabs (b1 - b2))).
  - apply score_map_get_other.
Qed.

Lemma fee_band_score_table_witness :
  fee_band_score (Some 2%Q) (Some 3%Q) = 75 /\
  fee_band_score (Some 1%Q) (Some 5%Q) = 0 /\
  fee_band_score (Some 1%Q) (Some 7%Q) = 0 /\
  fee_band_score (Some 1%Q) (Some (3 # 2)) = 0.
Proof.
  split; [|split; [|split]].
  - apply (proj1 (fee_band_score_table 2 3) 1). reflexivity.
  - apply (proj1 (fee_band_score_table 1 5) 4). reflexivity.
  - apply (proj1 (proj2 (fee_band_score_table 1 7))).
    vm_compute. discriminate.
  - apply (proj2 (proj2 (fee_band_score_table 1 (3 # 2)))).
    intros k H. unfold Qeq in H; simpl in H. lia.
Defined.

(** *** Symmetry *)

Lemma existsb_pointwise {A} (f g : A -> bool) (l : list A) :
  (forall x, f x = g x) -> existsb f l = existsb g l.
Proof.
  intros H. induction l as [|x xs IH]; simpl; [reflexivity|].
  now rewrite H, IH.
Qed.

Lemma currency_score_comm (c1 c2 : option string) :
  currency_score c1 c2 = currency_score c2 c1.
Proof.
  destruct c1 as [a|], c2 as [b|]; simpl; try reflexivity.
  now rewrite String.eqb_sym.
Qed.

Lemma passive_score_comm (p1 p2 : option bool) :
  passive_score p1 p2 = passive_score p2 p1.
Proof.
  destruct p1 as [[|]|], p2 as [[|]|]; reflexivity.
Qed.

Lemma fee_band_score_comm (b1 b2 : option Q) :
  fee_band_score b1 b2 = fee_band_score b2 b1.
Proof.
  destruct b1 as [a|], b2 as [b|]; try reflexivity.
  unfold fee_band_score. now rewrite Qabs_Qminus.
Qed.

Lemma region_similarity_get_comm (r1 r2 : string) :
  region_similarity_get (r1, r2) 0 = region_similarity_get (r2, r1) 0.
Proof.
  unfold region_similarity_get, region_similarity, find, fst, snd.
  destruct (String.eqb "emerging" r1), (String.eqb "other" r1),
    (String.eqb "developed" r1), (String.eqb "emerging" r2),
    (String.eqb "other" r2), (String.eqb "developed" r2); reflexivity.
Qed.

Lemma region_score_comm (r1 r2 : option string) :
  region_score r1 r2 = region_score r2 r1.
Proof.
  destruct r1 as [a|], r2 as [b|]; simpl; try reflexivity.
  rewrite (String.eqb_sym (Str.lower b)).
  destruct (String.eqb (Str.lower a) (Str.lower b)); [reflexivity|].
  apply region_similarity_get_comm.
Qed.

Lemma sectors_related_comm (s1 s2 : string) :
  sectors_related s1 s2 = sectors_related s2 s1.
Proof.
  unfold sectors_related.
  apply existsb_pointwise. intros [main related_list]; simpl.
  rewrite (orb_comm (Str.contains main s1)).
  f_equal. apply existsb_pointwise. intros related. apply orb_comm.
Qed.

Lemma sector_score_comm (s1 s2 : option string) :
  sector_score s1 s2 = sector_score s2 s1.
Proof.
  destruct s1 as [a|], s2 as [b|]; simpl; try reflexivity.
  rewrite (String.eqb_sym (Str.lower b)).
  destruct (String.eqb (Str.lower a) (Str.lower b)); [reflexivity|].
  now rewrite sectors_related_comm.
Qed.

(** C9: each of the five component scorers returns the same value when
    its two arguments, present or missing, are swapped. *)
Theorem component_scorers_commutative :
  (forall c1 c2, currency_score c1 c2 = currency_score c2 c1) /\
  (forall p1 p2, passive_score p1 p2 = passive_score p2 p1) /\
  (forall b1 b2, fee_band_score b1 b2 = fee_band_score b2 b1) /\
  (forall r1 r2, region_score r1 r2 = region_score r2 r1) /\
  (forall s1 s2, sector_score s1 s2 = sector_score s2 s1).
Proof.
  repeat split.
  - apply currency_score_comm.
  - apply passive_score_comm.
  - apply fee_band_score_comm.
  - apply region_score_comm.
  - apply sector_score_comm.
Qed.

(** *** Range *)

Lemma currency_score_range c1 c2 : 0 <= currency_score c1 c2 <= 100.
Proof.
  unfold currency_score.
  destruct c1 as [a|], c2 as [b|]; try lia.
  destruct (String.eqb a b); lia.
Qed.

Lemma passive_score_range p1 p2 : 0 <= passive_score p1 p2 <= 100.
Proof.
  unfold passive_score.
  destruct p1 as [a|], p2 as [b|]; try lia.
  destruct (Bool.eqb a b); lia.
Qed.

Lemma fee_band_score_range b1 b2 : 0 <= fee_band_score b1 b2 <= 100.
Proof.
  unfold fee_band_score.
  destruct b1 as [a|], b2 as [b|]; try lia.
  apply score_map_get_range.
Qed.

Lemma region_similarity_get_range key : 0 <= region_similarity_get key 0 <= 100.
Proof.
  unfold region_similarity_get, region_similarity, find, fst, snd.
  repeat match goal with
         | |- context [(String.eqb ?a ?b && String.eqb ?c ?d)%bool] =>
             destruct (String.eqb a b && String.eqb c d)%bool
         end; lia.
Qed.

Lemma region_score_range r1 r2 : 0 <= region_score r1 r2 <= 100.
Proof.
  unfold region_score.
  destruct r1 as [a|], r2 as [b|]; try lia.
  destruct (String.eqb (Str.lower a) (Str.lower b)); [lia|].
  apply region_similarity_get_range.
Qed.

Lemma sector_score_range s1 s2 : 0 <= sector_score s1 s2 <= 100.
Proof.
  unfold sector_score.
  destruct s1 as [a|], s2 as [b|]; try lia.
  destruct (String.eqb (Str.lower a) (Str.lower b)); [lia|].
  destruct (sectors_related (Str.lower a) (Str.lower b)); lia.
Qed.

(** One term of the weighted sum lies between 0 and the weight. *)
Lemma weighted_term_range (s : Z) (w : Q) :
  0 <= s <= 100 -> (0 <= w)%Q ->
  (0 <= inject_Z s * w / 100 /\ inject_Z s * w / 100 <= w)%Q.
Proof.
  intros [Hs0 Hs100] Hw.
  assert (H0 : (0 <= inject_Z s)%Q).
  { change 0%Q with (inject_Z 0). now rewrite <- Zle_Qle. }
  assert (H100 : (inject_Z s <= 100)%Q).
  { change 100%Q with (inject_Z 100). now rewrite <- Zle_Qle. }
  assert (Hm : (0 <= inject_Z s * w)%Q) by now apply Qmult_le_0_compat.
  assert (Hm' : (inject_Z s * w <= 100 * w)%Q).
  { apply Qmult_le_compat_r; assumption. }
  unfold Qdiv. change (/ 100)%Q with (1 # 100)%Q.
  split; lra.
Qed.

Lemma weighted_sum_unfold (w : Weights) (s : Scores) :
  weighted_sum w s =
  (0 + inject_Z (s_currency s) * w_currency w / 100
     + inject_Z (s_passive s) * w_passive w / 100
     + inject_Z (s_fee s) * w_fee w / 100
     + inject_Z (s_region s) * w_region w / 100
     + inject_Z (s_sector s) * w_sector w / 100)%Q.
Proof. reflexivity. Qed.

Lemma sum_weights_unfold (w : Weights) :
  sum_weights w =
  (0 + w_currency w + w_passive w + w_fee w + w_region w + w_sector w)%Q.
Proof. reflexivity. Qed.

Definition nonneg_weights (w : Weights) : Prop :=
  forall c, (0 <= weight_of w c)%Q.

Definition scores_in_range (s : Scores) : Prop :=
  forall c, 0 <= score_of s c <= 100.

Lemma weighted_sum_range (w : Weights) (s : Scores) :
  nonneg_weights w -> scores_in_range s ->
  (0 <= weighted_sum w s /\ weighted_sum w s <= sum_weights w)%Q.
Proof.
  intros Hw Hs.
  rewrite weighted_sum_unfold, sum_weights_unfold.
  pose proof (weighted_term_range _ _ (Hs Currency) (Hw Currency)) as [? ?].
  pose proof (weighted_term_range _ _ (Hs Passive) (Hw Passive)) as [? ?].
  pose proof (weighted_term_range _ _ (Hs Fee) (Hw Fee)) as [? ?].
  pose proof (weighted_term_range _ _ (Hs Region) (Hw Region)) as [? ?].
  pose proof (weighted_term_range _ _ (Hs Sector) (Hw Sector)) as [? ?].
  simpl in *. split; lra.
Qed.

Lemma calculate_peer_score_scores_in_range self fund1 fund2 :
  scores_in_range (snd (calculate_peer_score self fund1 fund2)).
Proof.
  intros [| | | |]; simpl.
  - apply currency_score_range.
  - apply passive_score_range.
  - apply fee_band_score_range.
  - apply region_score_range.
  - apply sector_score_range.
Qed.

(** C8: each of the five component scorers returns a value in
    [0, 100] for every pair of attribute values, present or missing; and
    for every pair of fund records the overall score of
    [calculate_peer_score] lies in [0, 100] whenever the five weights,
    non-negative as the weight configuration requires, sum to 100. *)
Theorem scores_within_0_100 :
  (forall c1 c2, 0 <= currency_score c1 c2 <= 100) /\
  (forall p1 p2, 0 <= passive_score p1 p2 <= 100) /\
  (forall b1 b2, 0 <= fee_band_score b1 b2 <= 100) /\
  (forall r1 r2, 0 <= region_score r1 r2 <= 100) /\
  (forall s1 s2, 0 <= sector_score s1 s2 <= 100) /\
  (forall self fund1 fund2,
     nonneg_weights (weights self) ->
     (sum_weights (weights self) == 100)%Q ->
     (0 <= fst (calculate_peer_score self fund1 fund2) <= 100)%Q).
Proof.
  split; [exact currency_score_range|].
  split; [exact passive_score_range|].
  split; [exact fee_band_score_range|].
  split; [exact region_score_range|].
  split; [exact sector_score_range|].
  intros self fund1 fund2 Hw Hsum.
  destruct (weighted_sum_range (weights self)
              (snd (calculate_peer_score self fund1 fund2)) Hw
              (calculate_peer_score_scores_in_range self fund1 fund2))
    as [Hlo Hhi].
  simpl in *. rewrite Hsum in Hhi. split; assumption.
Qed.

Lemma default_weights_nonneg : nonneg_weights (weights default_scorer).
Proof. intros [| | | |]; simpl; discriminate. Qed.

Lemma scores_within_0_100_witness :
  (0 <= fst (calculate_peer_score default_scorer fund_A fund_B) <= 100)%Q.
Proof.
  apply (proj2 (proj2 (proj2 (proj2 (proj2 scores_within_0_100))))).
  - exact default_weights_nonneg.
  - reflexivity.
Defined.

(** ** Construction and weight normalisation *)

Definition mk_weights (cw pw fw rw sw : Q) : Weights :=
  {| w_currency := cw; w_passive := pw; w_fee := fw;
     w_region := rw; w_sector := sw |}.

(** The weights the normalising loop leaves behind. *)
Definition rescaled (w : Weights) (total_weight : Q) : Weights :=
  mk_weights (w_currency w / total_weight * 100)
             (w_passive w / total_weight * 100)
             (w_fee w / total_weight * 100)
             (w_region w / total_weight * 100)
             (w_sector w / total_weight * 100).

Lemma Qeq_bool_false (a b : Q) : ~ (a == b)%Q -> Qeq_bool a b = false.
Proof.
  intros H. apply not_true_is_false. intros E. now apply Qeq_bool_iff in E.
Qed.

Lemma Qlt_bool_iff (a b : Q) : Qlt_bool a b = true <-> (a < b)%Q.
Proof.
  unfold Qlt_bool. rewrite negb_true_iff. split.
  - intros H. apply Qnot_le_lt. intros Hle.
    apply Qle_bool_iff in Hle. congruence.
  - intros H. apply not_true_is_false. intros E.
    apply Qle_bool_iff in E. now apply (Qlt_not_le _ _ H).
Qed.

Lemma normalize_loop_nonzero (w : Weights) (total_weight : Q) :
  ~ (total_weight == 0)%Q ->
  normalize_loop components total_weight w = ret (rescaled w total_weight).
Proof.
  intros Hnz. destruct w as [cw pw fw rw sw].
  unfold components, normalize_loop, py_div.
  rewrite (Qeq_bool_false _ _ Hnz). reflexivity.
Qed.

Lemma normalize_loop_zero (w : Weights) (total_weight : Q) :
  (total_weight == 0)%Q ->
  normalize_loop components total_weight w = raise ZeroDivisionError.
Proof.
  intros Hz. unfold components, normalize_loop, py_div.
  apply Qeq_bool_iff in Hz. now rewrite Hz.
Qed.

Lemma rescaled_sum (w : Weights) :
  ~ (sum_weights w == 0)%Q ->
  (sum_weights (rescaled w (sum_weights w)) == 100)%Q.
Proof.
  intros Hnz. destruct w as [cw pw fw rw sw].
  unfold rescaled, mk_weights, sum_weights in *; simpl in *.
  field. intros H. apply Hnz. lra.
Qed.

Lemma init_far (cw pw fw rw sw : Q) :
  let w := mk_weights cw pw fw rw sw in
  (1 # 100 < Qabs (sum_weights w - 100))%Q ->
  init cw pw fw rw sw =
    (print (WarnWeightsNormalizing (sum_weights w)) ;;;
     w' <- normalize_loop components (sum_weights w) w ;;
     ret {| weights := w' |}).
Proof.
  intros w Hfar. unfold init. fold (mk_weights cw pw fw rw sw). fold w.
  now rewrite (proj2 (Qlt_bool_iff _ _) Hfar).
Qed.

Lemma init_near (cw pw fw rw sw : Q) :
  let w := mk_weights cw pw fw rw sw in
  (Qabs (sum_weights w - 100) <= 1 # 100)%Q ->
  init cw pw fw rw sw = (inr {| weights := w |}, []).
Proof.
  intros w Hnear. unfold init. fold (mk_weights cw pw fw rw sw). fold w.
  destruct (Qlt_bool (1 # 100) (Qabs (sum_weights w - 100))) eqn:E;
    [|reflexivity].
  apply Qlt_bool_iff in E. exfalso.
  now apply (Qlt_not_le _ _ E).
Qed.

Lemma init_rescales (cw pw fw rw sw : Q) :
  let w := mk_weights cw pw fw rw sw in
  (1 # 100 < Qabs (sum_weights w - 100))%Q -> ~ (sum_weights w == 0)%Q ->
  init cw pw fw rw sw =
    (inr {| weights := rescaled w (sum_weights w) |},
     [WarnWeightsNormalizing (sum_weights w)]).
Proof.
  intros w Hfar Hnz.
  rewrite (init_far cw pw fw rw sw Hfar). fold w.
  now rewrite (normalize_loop_nonzero _ _ Hnz).
Qed.

(** C3, as stated, fails: the non-negative weights 30.0078125, 10, 25,
    20, 15 sum to 100.0078125, not to 100, and the constructor keeps them
    as they are and reports nothing. *)
Lemma init_keeps_weights_near_100 :
  nonneg_weights (mk_weights (3841 # 128) 10 25 20 15) /\
  ~ (sum_weights (mk_weights (3841 # 128) 10 25 20 15) == 100)%Q /\
  init (3841 # 128) 10 25 20 15 =
    (inr {| weights := mk_weights (3841 # 128) 10 25 20 15 |}, []) /\
  ~ (forall self log,
       init (3841 # 128) 10 25 20 15 = (inr self, log) ->
       (sum_weights (weights self) == 100)%Q /\ log <> []).
Proof.
  split; [intros [| | | |]; simpl; discriminate|].
  split; [intros H; vm_compute in H; discriminate H|].
  split; [reflexivity|].
  intros H.
  destruct (H _ _ eq_refl) as [Hsum _].
  vm_compute in Hsum. discriminate Hsum.
Qed.

(** C3, amended: for every weight configuration whose sum is not zero
    and differs from 100 by more than 0.01, the constructor succeeds,
    reports the rescaling, and leaves every weight multiplied by
    100 / sum, so that the weights sum to 100; a configuration whose sum
    is within 0.01 of 100 is kept unchanged and nothing is reported. *)
Theorem init_normalizes (cw pw fw rw sw : Q) :
  let w := mk_weights cw pw fw rw sw in
  let total_weight := sum_weights w in
  ((1 # 100 < Qabs (total_weight - 100))%Q -> ~ (total_weight == 0)%Q ->
     exists self,
       init cw pw fw rw sw = (inr self, [WarnWeightsNormalizing total_weight]) /\
       (forall c, weight_of (weights self) c
                  == weight_of w c * (100 / total_weight))%Q /\
       (sum_weights (weights self) == 100)%Q) /\
  ((Qabs (total_weight - 100) <= 1 # 100)%Q ->
     init cw pw fw rw sw = (inr {| weights := w |}, [])).
Proof.
  intros w total_weight. split.
  - intros Hfar Hnz.
    exists {| weights := rescaled w total_weight |}.
    split; [|split].
    + exact (init_rescales cw pw fw rw sw Hfar Hnz).
    + intros [| | | |]; simpl; field; exact Hnz.
    + now apply rescaled_sum.
  - apply init_near.
Qed.

Lemma init_normalizes_witness :
  (exists self,
     init 40 40 40 40 40 = (inr self, [WarnWeightsNormalizing 200]) /\
     (forall c, weight_of (weights self) c == 20)%Q /\
     (sum_weights (weights self) == 100)%Q) /\
  init 30 10 25 20 15 = (inr default_scorer, []).
Proof.
  split.
  - destruct (proj1 (init_normalizes 40 40 40 40 40))
      as [self [Hinit [Hw Hsum]]].
    + reflexivity.
    + discriminate.
    + exists self. split; [exact Hinit|]. split; [|exact Hsum].
      intros c. rewrite (Hw c). destruct c; reflexivity.
  - apply (proj2 (init_normalizes 30 10 25 20 15)). discriminate.
Defined.

(** C10: constructing the scorer with five weights whose sum is 0 raises
    ZeroDivisionError during normalisation (after the warning has been
    printed), and construction succeeds for every weight configuration
    whose sum is positive. *)
Theorem init_zero_sum_raises (cw pw fw rw sw : Q) :
  let total_weight := sum_weights (mk_weights cw pw fw rw sw) in
  ((total_weight == 0)%Q ->
     init cw pw fw rw sw =
       (inl ZeroDivisionError, [WarnWeightsNormalizing total_weight])) /\
  ((0 < total_weight)%Q ->
     exists self log, init cw pw fw rw sw = (inr self, log)).
Proof.
  intros total_weight. split.
  - intros Hz.
    assert (Hfar : (1 # 100 < Qabs (total_weight - 100))%Q).
    { rewrite Hz. reflexivity. }
    rewrite (init_far cw pw fw rw sw Hfar).
    now rewrite (normalize_loop_zero _ _ Hz).
  - intros Hpos.
    assert (Hnz : ~ (total_weight == 0)%Q).
    { intros Hz. rewrite Hz in Hpos. discriminate Hpos. }
    destruct (Qlt_le_dec (1 # 100) (Qabs (total_weight - 100))) as [Hfar|Hnear].
    + eexists _, _. exact (init_rescales cw pw fw rw sw Hfar Hnz).
    + eexists _, _. exact (init_near cw pw fw rw sw Hnear).
Qed.

Lemma init_zero_sum_raises_witness :
  init 0 0 0 0 0 = (inl ZeroDivisionError, [WarnWeightsNormalizing 0]) /\
  exists self log, init 30 10 25 20 15 = (inr self, log).
Proof.
  split.
  - apply (proj1 (init_zero_sum_raises 0 0 0 0 0)). reflexivity.
  - apply (proj2 (init_zero_sum_raises 30 10 25 20 15)). reflexivity.
Defined.

(** ** Peer finder *)

Lemma rows_of_nil_iff (fid : string) (df : list Fund) :
  rows_of fid df = [] <-> forall f, In f df -> fund_id f <> fid.
Proof.
  unfold rows_of. split.
  - intros Hnil f Hin Heq.
    assert (Hf : In f (filter (fun f => String.eqb (fund_id f) fid) df)).
    { apply filter_In. split; [exact Hin|]. now apply String.eqb_eq. }
    rewrite Hnil in Hf. exact Hf.
  - intros Habs.
    destruct (filter (fun f => String.eqb (fund_id f) fid) df) as [|f fs] eqn:E;
      [reflexivity|].
    assert (Hf : In f (f :: fs)) by now left.
    rewrite <- E in Hf. apply filter_In in Hf. destruct Hf as [Hin Heq].
    apply String.eqb_eq in Heq. now destruct (Habs f Hin).
Qed.

Lemma same_category_funds_In (target_fund : Fund) (fid cat : string)
    (df : list Fund) (exclude_passive : bool) (f : Fund) :
  In f (same_category_funds target_fund fid cat df exclude_passive) <->
  In f df /\ morningstar_category f = Some cat /\ fund_id f <> fid /\
  ((exclude_passive && negb (truthy (is_passive target_fund)))%bool = true ->
   is_passive f <> Some true).
Proof.
  unfold same_category_funds.
  assert (Hbase : forall g,
    In g (filter (fun f => (cell_eqb (morningstar_category f) cat
                            && negb (String.eqb (fund_id f) fid))%bool) df) <->
    In g df /\ morningstar_category g = Some cat /\ fund_id g <> fid).
  { intros g. rewrite filter_In, andb_true_iff, negb_true_iff.
    unfold cell_eqb.
    destruct (morningstar_category g) as [c|].
    - rewrite String.eqb_eq, String.eqb_neq.
      split.
      + intros [Hin [-> Hne]]. auto.
      + intros [Hin [Heq Hne]]. inversion Heq. auto.
    - split.
      + intros [_ [Habs _]]. discriminate Habs.
      + intros [_ [Habs _]]. discriminate Habs. }
  destruct (exclude_passive && negb (truthy (is_passive target_fund)))%bool.
  - rewrite filter_In, Hbase. unfold cell_ne_true.
    split.
    + intros [[Hin [Hc Hne]] Hp]. repeat split; try assumption.
      intros _ Habs. rewrite Habs in Hp. discriminate Hp.
    + intros [Hin [Hc [Hne Hp]]]. repeat split; try assumption.
      destruct (is_passive f) as [[|]|]; try reflexivity.
      now destruct (Hp eq_refl).
  - rewrite Hbase. split.
    + intros [Hin [Hc Hne]]. repeat split; try assumption.
      intros Habs. discriminate Habs.
    + intros [Hin [Hc [Hne _]]]. auto.
Qed.

Section PeerFinderFacts.

Context {sorter : SortValues}.

(** What [score_peers_for_fund] returns once the target row is known. *)
Lemma score_peers_for_fund_found (self : FIPeerScoring) (fid : string)
    (df : list Fund) (exclude_passive : bool) (target_fund : Fund)
    (others : list Fund) :
  rows_of fid df = target_fund :: others ->
  score_peers_for_fund self fid df exclude_passive =
    match morningstar_category target_fund with
    | None => (inr [], [WarnNoCategory fid])
    | Some cat =>
        match same_category_funds target_fund fid cat df exclude_passive with
        | [] => (inr [], [NoComparableFunds cat])
        | c :: cs =>
            (inr (sort_values (map (score_row self target_fund cat) (c :: cs))),
             [])
        end
    end.
Proof.
  intros Hrows. unfold score_peers_for_fund. rewrite Hrows.
  destruct (morningstar_category target_fund) as [cat|]; [|reflexivity].
  destruct (same_category_funds target_fund fid cat df exclude_passive);
    reflexivity.
Qed.

(** With the target in the table, the call returns: its rows are the
    scored candidates, in some order. *)
Lemma score_peers_for_fund_rows (self : FIPeerScoring) (fid : string)
    (df : list Fund) (exclude_passive : bool) (target_fund : Fund)
    (others : list Fund) (cat : string) :
  rows_of fid df = target_fund :: others ->
  morningstar_category target_fund = Some cat ->
  exists rs log,
    score_peers_for_fund self fid df exclude_passive = (inr rs, log) /\
    Permutation
      (map (score_row self target_fund cat)
           (same_category_funds target_fund fid cat df exclude_passive))
      rs.
Proof.
  intros Hrows Hcat.
  rewrite (score_peers_for_fund_found self fid df exclude_passive _ _ Hrows).
  rewrite Hcat.
  destruct (same_category_funds target_fund fid cat df exclude_passive)
    as [|c cs].
  - exists [], [NoComparableFunds cat]. split; [reflexivity|constructor].
  - eexists _, _. split; [reflexivity|]. apply sort_values_perm.
Qed.

Lemma score_peers_for_fund_returns (self : FIPeerScoring) (fid : string)
    (df : list Fund) (exclude_passive : bool) :
  rows_of fid df <> [] ->
  exists rs log, score_peers_for_fund self fid df exclude_passive = (inr rs, log).
Proof.
  intros Hrows.
  destruct (rows_of fid df) as [|target_fund others] eqn:E; [now destruct Hrows|].
  rewrite (score_peers_for_fund_found self fid df exclude_passive _ _ E).
  destruct (morningstar_category target_fund) as [cat|]; [|now eexists _, _].
  destruct (same_category_funds target_fund fid cat df exclude_passive);
    now eexists _, _.
Qed.

Lemma score_peers_for_fund_sorted (self : FIPeerScoring) (fid : string)
    (df : list Fund) (exclude_passive : bool) (rs : list PeerResult)
    (log : list Message) :
  score_peers_for_fund self fid df exclude_passive = (inr rs, log) ->
  StronglySorted score_ge rs.
Proof.
  unfold score_peers_for_fund.
  destruct (rows_of fid df) as [|target_fund others]; [discriminate|].
  destruct (morningstar_category target_fund) as [cat|].
  - destruct (same_category_funds target_fund fid cat df exclude_passive).
    + intros H. inversion H. constructor.
    + intros H. inversion H. apply sort_values_sorted.
  - intros H. inversion H. constructor.
Qed.

(** C5: for every fund table and every target identifier absent from it,
    [score_peers_for_fund] raises the not-found ValueError and returns no
    rows; and the call raises in no other situation. *)
Theorem score_peers_for_fund_not_found (self : FIPeerScoring) (fid : string)
    (df : list Fund) (exclude_passive : bool) :
  ((forall f, In f df -> fund_id f <> fid) ->
     score_peers_for_fund self fid df exclude_passive =
       (inl (ValueError (not_found_msg fid)), [])) /\
  (forall e log,
     score_peers_for_fund self fid df exclude_passive = (inl e, log) ->
     e = ValueError (not_found_msg fid) /\
     forall f, In f df -> fund_id f <> fid).
Proof.
  split.
  - intros Habs. apply rows_of_nil_iff in Habs.
    unfold score_peers_for_fund. now rewrite Habs.
  - intros e log H.
    destruct (rows_of fid df) as [|target_fund others] eqn:E.
    + split; [|now apply rows_of_nil_iff].
      unfold score_peers_for_fund in H. rewrite E in H. now inversion H.
    + destruct (score_peers_for_fund_returns self fid df exclude_passive)
        as [rs [log' Hret]]; [now rewrite E|].
      rewrite Hret in H. discriminate H.
Qed.

(** C7: whenever [score_peers_for_fund] returns, its rows are in
    descending order of their overall score [peer_score]: every row's
    score is at least the score of every later row. *)
Theorem score_peers_for_fund_descending (self : FIPeerScoring) (fid : string)
    (df : list Fund) (exclude_passive : bool) (rs : list PeerResult)
    (log : list Message) :
  score_peers_for_fund self fid df exclude_passive = (inr rs, log) ->
  StronglySorted (fun a b => (peer_score b <= peer_score a)%Q) rs.
Proof.
  unfold score_peers_for_fund.
  destruct (rows_of fid df) as [|target_fund others]; [discriminate|].
  destruct (morningstar_category target_fund) as [cat|].
  - destruct (same_category_funds target_fund fid cat df exclude_passive)
      as [|c cs]; intros H; inversion H; subst.
    + constructor.
    + exact (sort_values_sorted (map (score_row self target_fund cat) (c :: cs))).
  - intros H. inversion H. constructor.
Qed.

(** C4: in [score_peers_for_fund] with [exclude_passive] true, a target
    that is not passive gets no passive candidate among its rows, while
    every other candidate of its category is kept; a target that is
    passive keeps every other fund of its category, the passive ones
    included. *)
Theorem passive_exclusion_asymmetry (self : FIPeerScoring) (fid : string)
    (df : list Fund) (target_fund : Fund) (others : list Fund) (cat : string) :
  rows_of fid df = target_fund :: others ->
  morningstar_category target_fund = Some cat ->
  exists rs log,
    score_peers_for_fund self fid df true = (inr rs, log) /\
    (is_passive target_fund = Some false ->
       (forall f, In f (same_category_funds target_fund fid cat df true) ->
                  is_passive f <> Some true) /\
       (forall r, In r rs -> r_is_passive r <> Some true) /\
       (forall f, In f df -> morningstar_category f = Some cat ->
                  fund_id f <> fid -> is_passive f <> Some true ->
                  In (score_row self target_fund cat f) rs)) /\
    (is_passive target_fund = Some true ->
       (forall f, In f df -> morningstar_category f = Some cat ->
                  fund_id f <> fid ->
                  In f (same_category_funds target_fund fid cat df true) /\
                  In (score_row self target_fund cat f) rs)).
Proof.
  intros Hrows Hcat.
  destruct (score_peers_for_fund_rows self fid df true _ _ _ Hrows Hcat)
    as [rs [log [Hret Hperm]]].
  exists rs, log. split; [exact Hret|]. split.
  - intros Hactive.
    assert (Hcand : forall f,
      In f (same_category_funds target_fund fid cat df true) ->
      is_passive f <> Some true).
    { intros f Hin. apply same_category_funds_In in Hin.
      destruct Hin as [_ [_ [_ Hp]]]. apply Hp.
      now rewrite Hactive. }
    split; [exact Hcand|]. split.
    + intros r Hr.
      apply (Permutation_in _ (Permutation_sym Hperm)) in Hr.
      apply in_map_iff in Hr. destruct Hr as [f [<- Hf]].
      unfold score_row. destruct (calculate_peer_score self target_fund f).
      simpl. now apply Hcand.
    + intros f Hin Hc Hne Hp.
      apply (Permutation_in _ Hperm). apply in_map.
      apply same_category_funds_In. auto.
  - intros Hpassive f Hin Hc Hne.
    assert (Hf : In f (same_category_funds target_fund fid cat df true)).
    { apply same_category_funds_In. repeat split; try assumption.
      rewrite Hpassive. intros Habs. discriminate Habs. }
    split; [exact Hf|].
    apply (Permutation_in _ Hperm). now apply in_map.
Qed.

End PeerFinderFacts.

(** ** Peer group builder *)

Lemma dict_get_set_same (k : string) (v : PeerGroup) (d : Dict) :
  dict_get k (dict_set k v d) = Some v.
Proof.
  induction d as [|[k' v'] rest IH]; simpl.
  - now rewrite String.eqb_refl.
  - destruct (String.eqb k' k) eqn:E; simpl.
    + now rewrite String.eqb_refl.
    + now rewrite E.
Qed.

Lemma dict_get_set_other (k k' : string) (v : PeerGroup) (d : Dict) :
  k <> k' -> dict_get k (dict_set k' v d) = dict_get k d.
Proof.
  intros Hne. induction d as [|[k0 v0] rest IH]; simpl.
  - apply String.eqb_neq in Hne. rewrite String.eqb_sym in Hne. now rewrite Hne.
  - destruct (String.eqb k0 k') eqn:E; simpl.
    + apply String.eqb_eq in E. subst k0.
      apply String.eqb_neq in Hne. rewrite String.eqb_sym in Hne.
      now rewrite Hne.
    + destruct (String.eqb k0 k); [reflexivity|exact IH].
Qed.

Lemma head_nonneg {A} (n : Z) (l : list A) :
  0 <= n -> head n l = firstn (Z.to_nat n) l.
Proof.
  intros Hn. unfold head.
  destruct (Z.leb_spec 0 n); [reflexivity|lia].
Qed.

Lemma group_peers_peer_group_of (name category : option string)
    (rs : list PeerResult) (min_score : Q) (max_peers : Z) :
  group_peers (peer_group_of name category rs min_score max_peers) =
    head max_peers (filter (qualifies min_score) rs) /\
  group_peer_count (peer_group_of name category rs min_score max_peers) =
    List.length (head max_peers (filter (qualifies min_score) rs)).
Proof.
  destruct rs as [|r rs']; simpl; [|split; reflexivity].
  unfold head. destruct (0 <=? max_peers); simpl.
  - now rewrite firstn_nil.
  - split; reflexivity.
Qed.

Lemma StronglySorted_filter {A} (R : A -> A -> Prop) (p : A -> bool)
    (l : list A) :
  StronglySorted R l -> StronglySorted R (filter p l).
Proof.
  induction 1 as [|x xs Hs IH Hx]; simpl.
  - constructor.
  - destruct (p x); [|exact IH].
    constructor; [exact IH|].
    apply Forall_forall. intros y Hy.
    apply filter_In in Hy. destruct Hy as [Hy _].
    rewrite Forall_forall in Hx. now apply Hx.
Qed.

Lemma StronglySorted_app_order {A} (R : A -> A -> Prop) (l1 l2 : list A) :
  StronglySorted R (l1 ++ l2) ->
  forall a b, In a l1 -> In b l2 -> R a b.
Proof.
  induction l1 as [|x xs IH]; simpl; intros Hs a b Ha Hb.
  - destruct Ha.
  - inversion Hs as [|? ? Hs' Hx]; subst.
    destruct Ha as [<-|Ha].
    + rewrite Forall_forall in Hx. apply Hx.
      apply in_or_app. now right.
    + now apply IH.
Qed.

Section PeerGroupFacts.

Context {sorter : SortValues}.

Variable self : FIPeerScoring.
Variable df : list Fund.
Variable min_score : Q.
Variable max_peers : Z.
Variable exclude_passive : bool.

(** The group stored under a key is the one built from the peer table
    of that key. *)
Definition group_built (fid : string) (g : PeerGroup) : Prop :=
  exists target_fund others rs log,
    rows_of fid df = target_fund :: others /\
    score_peers_for_fund self fid df exclude_passive = (inr rs, log) /\
    g = peer_group_of (fund_name target_fund)
                      (morningstar_category target_fund)
                      rs min_score max_peers.

Definition groups_built (d : Dict) : Prop :=
  forall fid g, dict_get fid d = Some g -> group_built fid g.

Lemma process_fund_returns (st : Dict * list SummaryStat) (fid : string) :
  groups_built (fst st) ->
  exists st' log,
    process_fund self df min_score max_peers exclude_passive st fid
      = (inr st', log) /\
    groups_built (fst st') /\
    (forall k, dict_get k (fst st) <> None -> dict_get k (fst st') <> None) /\
    (rows_of fid df <> [] -> dict_get fid (fst st') <> None).
Proof.
  intros Hst. unfold process_fund.
  destruct (rows_of fid df) as [|fund_row others] eqn:E.
  - exists st, [WarnFundNotFound fid].
    split; [reflexivity|]. split; [exact Hst|]. split; [auto|].
    intros H. now destruct H.
  - destruct (score_peers_for_fund_returns self fid df exclude_passive)
      as [rs [log Hret]]; [now rewrite E|].
    rewrite Hret. unfold bind, print, ret.
    eexists _, _. split; [reflexivity|]. simpl.
    split; [|split].
    + intros k g Hk.
      destruct (String.eqb_spec k fid) as [->|Hne].
      * rewrite dict_get_set_same in Hk. inversion Hk; subst.
        now exists fund_row, others, rs, log.
      * rewrite dict_get_set_other in Hk by exact Hne. now apply Hst.
    + intros k Hk.
      destruct (String.eqb_spec k fid) as [->|Hne].
      * now rewrite dict_get_set_same.
      * now rewrite dict_get_set_other by exact Hne.
    + intros _. now rewrite dict_get_set_same.
Qed.

Lemma process_funds_returns (ids : list string) :
  forall st, groups_built (fst st) ->
  exists st' log,
    process_funds self df min_score max_peers exclude_passive ids st
      = (inr st', log) /\
    groups_built (fst st') /\
    (forall k, dict_get k (fst st) <> None -> dict_get k (fst st') <> None) /\
    (forall k, In k ids -> rows_of k df <> [] -> dict_get k (fst st') <> None).
Proof.
  induction ids as [|fid rest IH]; intros st Hst; simpl.
  - exists st, []. split; [reflexivity|]. split; [exact Hst|].
    split; [auto|]. intros k [].
  - destruct (process_fund_returns st fid Hst)
      as [st1 [log1 [Hstep [Hst1 [Hkeep1 Hnew1]]]]].
    destruct (IH st1 Hst1) as [st2 [log2 [Hrest [Hst2 [Hkeep2 Hnew2]]]]].
    rewrite Hstep. unfold bind. rewrite Hrest.
    exists st2, (log1 ++ log2). split; [reflexivity|].
    split; [exact Hst2|]. split.
    + intros k Hk. now apply Hkeep2, Hkeep1.
    + intros k [<-|Hin] Hrows.
      * now apply Hkeep2, Hnew1.
      * now apply Hnew2.
Qed.

(** The batch never raises; it stores one group for every requested
    identifier present in the table, each built from that identifier's
    peer table. *)
Lemma create_peer_groups_returns (ids : list string) (output_summary : bool) :
  exists groups log,
    create_peer_groups_for_firm_funds self ids df min_score max_peers
                                      exclude_passive output_summary
      = (inr groups, log) /\
    groups_built groups /\
    (forall k, In k ids -> rows_of k df <> [] -> dict_get k groups <> None).
Proof.
  destruct (process_funds_returns ids ([], []))
    as [st [log [Hrun [Hst [_ Hnew]]]]].
  { intros fid g H. discriminate H. }
  unfold create_peer_groups_for_firm_funds. rewrite Hrun.
  unfold bind, print, ret.
  destruct (output_summary && negb (Nat.eqb (List.length (snd st)) 0))%bool;
    eexists _, _; (split; [reflexivity|]); split; assumption.
Qed.

(** C6: the peers stored for a target by
    [create_peer_groups_for_firm_funds] are the rows of the target's peer
    table whose score reaches the minimum, cut to the first [max_peers] of
    them in the table's descending order.  So every stored peer reaches the
    minimum, no skipped qualifying row scores more than a stored one, and
    the group has exactly [max_peers] peers as soon as that many rows
    qualify (30 out of 50, for instance). *)
Theorem peer_group_threshold_then_cap (ids : list string)
    (output_summary : bool) (groups : Dict) (log : list Message)
    (fid : string) (g : PeerGroup) :
  0 <= max_peers ->
  create_peer_groups_for_firm_funds self ids df min_score max_peers
                                    exclude_passive output_summary
    = (inr groups, log) ->
  dict_get fid groups = Some g ->
  exists rs log',
    score_peers_for_fund self fid df exclude_passive = (inr rs, log') /\
    group_peers g = firstn (Z.to_nat max_peers) (filter (qualifies min_score) rs) /\
    group_peer_count g = List.length (group_peers g) /\
    List.length (group_peers g) =
      Nat.min (Z.to_nat max_peers)
              (List.length (filter (qualifies min_score) rs)) /\
    (forall p, In p (group_peers g) -> (min_score <= peer_score p)%Q) /\
    (forall p r, In p (group_peers g) ->
                 In r (skipn (Z.to_nat max_peers)
                             (filter (qualifies min_score) rs)) ->
                 (peer_score r <= peer_score p)%Q).
Proof.
  intros Hmax Hrun Hget.
  destruct (create_peer_groups_returns ids output_summary)
    as [groups' [log0 [Hrun' [Hbuilt _]]]].
  rewrite Hrun in Hrun'. inversion Hrun'; subst groups' log0.
  destruct (Hbuilt fid g Hget) as [target_fund [others [rs [log' [_ [Hret ->]]]]]].
  exists rs, log'. split; [exact Hret|].
  destruct (group_peers_peer_group_of (fund_name target_fund)
              (morningstar_category target_fund) rs min_score max_peers)
    as [Hpeers Hcount].
  rewrite Hcount, Hpeers, (head_nonneg _ _ Hmax).
  split; [reflexivity|]. split; [reflexivity|].
  split; [apply length_firstn|]. split.
  - intros p Hp.
    assert (Hq : In p (filter (qualifies min_score) rs)).
    { rewrite <- (firstn_skipn (Z.to_nat max_peers)).
      apply in_or_app. now left. }
    apply filter_In in Hq. destruct Hq as [_ Hq].
    now apply Qle_bool_iff.
  - intros p r Hp Hr.
    apply (StronglySorted_app_order score_ge
             (firstn (Z.to_nat max_peers) (filter (qualifies min_score) rs))
             (skipn (Z.to_nat max_peers) (filter (qualifies min_score) rs)));
      try assumption.
    rewrite firstn_skipn. apply StronglySorted_filter.
    exact (score_peers_for_fund_sorted self fid df exclude_passive rs log' Hret).
Qed.

End PeerGroupFacts.

(** ** Worked examples *)

Definition mk_fund (fid cur : string) (passive : option bool) (fee : Q)
    (reg sec : string) : Fund :=
  {| fund_id := fid; fund_name := Some fid;
     morningstar_category := Some "X"%string;
     currency := Some cur; is_passive := passive; fee_band := Some fee;
     region := Some reg; primary_sector := Some sec |}.

Definition fund_T : Fund :=
  mk_fund "T" "USD" (Some false) 2 "developed" "corporate".

(** Against [fund_T] and the default weights these three score 55, 90
    and 70. *)
Definition fund_55 : Fund :=
  mk_fund "C55" "EUR" (Some false) 2 "developed" "government".
Definition fund_90 : Fund :=
  mk_fund "C90" "USD" (Some true) 2 "developed" "corporate".
Definition fund_70 : Fund :=
  mk_fund "C70" "EUR" (Some false) 2 "Developed" "Corporate".

Definition fund_TP : Fund :=
  mk_fund "TP" "USD" (Some true) 2 "developed" "corporate".

Definition ordering_universe : list Fund :=
  [fund_T; fund_55; fund_90; fund_70].

Definition passive_universe : list Fund :=
  [fund_T; fund_55; fund_90; fund_TP; fund_70].

(** A target and fifty candidates that all reach the score 70. *)
Definition cap_candidate (n : nat) : Fund :=
  mk_fund (String "F" (String (ascii_of_nat (48 + n)) EmptyString)) "USD"
          (Some false) (inject_Z (2 + Z.of_nat (n mod 3)))
          "developed" "corporate".

Definition cap_universe : list Fund :=
  fund_T :: map cap_candidate (seq 0 50).

Lemma score_peers_for_fund_descending_witness :
  exists rs,
    score_peers_for_fund default_scorer "T" ordering_universe false
      = (inr rs, []) /\
    map (fun f => peer_score (score_row default_scorer fund_T "X" f))
        [fund_55; fund_90; fund_70]
      = [5500 # 100; 9000 # 100; 7000 # 100]%Q /\
    map peer_score rs = [9000 # 100; 7000 # 100; 5500 # 100]%Q /\
    StronglySorted (fun a b => (peer_score b <= peer_score a)%Q) rs.
Proof.
  eexists. split; [vm_compute; reflexivity|].
  split; [vm_compute; reflexivity|].
  split; [vm_compute; reflexivity|].
  apply (score_peers_for_fund_descending default_scorer "T"
           ordering_universe false _ []).
  vm_compute; reflexivity.
Defined.

Lemma score_peers_for_fund_not_found_witness :
  score_peers_for_fund default_scorer "ZZZ" ordering_universe true
    = (inl (ValueError "Fund ZZZ not found in dataset"), []) /\
  (ValueError "Fund ZZZ not found in dataset"
     = ValueError (not_found_msg "ZZZ") /\
   forall f, In f ordering_universe -> fund_id f <> "ZZZ"%string).
Proof.
  split.
  - apply (proj1 (score_peers_for_fund_not_found default_scorer "ZZZ"
                    ordering_universe true)).
    intros f Hin. simpl in Hin.
    destruct Hin as [<-|[<-|[<-|[<-|[]]]]]; discriminate.
  - apply (proj2 (score_peers_for_fund_not_found default_scorer "ZZZ"
                    ordering_universe true) _ []).
    vm_compute; reflexivity.
Defined.

Lemma passive_exclusion_asymmetry_witness :
  (exists rs log,
     score_peers_for_fund default_scorer "T" passive_universe true
       = (inr rs, log) /\
     map r_fund_id rs = ["C70"; "C55"]%string /\
     (forall r, In r rs -> r_is_passive r <> Some true)) /\
  (exists rs log,
     score_peers_for_fund default_scorer "TP" passive_universe true
       = (inr rs, log) /\
     map r_fund_id rs = ["C90"; "T"; "C70"; "C55"]%string /\
     In (score_row default_scorer fund_TP "X" fund_90) rs).
Proof.
  split.
  - destruct (passive_exclusion_asymmetry default_scorer "T" passive_universe
                fund_T [] "X" eq_refl eq_refl)
      as [rs [log [Hret [Hactive _]]]].
    exists rs, log. split; [exact Hret|].
    split; [|exact (proj1 (proj2 (Hactive eq_refl)))].
    vm_compute in Hret. inversion Hret. reflexivity.
  - destruct (passive_exclusion_asymmetry default_scorer "TP" passive_universe
                fund_TP [] "X" eq_refl eq_refl)
      as [rs [log [Hret [_ Hpassive]]]].
    exists rs, log. split; [exact Hret|]. split.
    + vm_compute in Hret. inversion Hret. reflexivity.
    + apply (Hpassive eq_refl fund_90).
      * simpl. auto.
      * reflexivity.
      * discriminate.
Defined.

Lemma peer_group_threshold_then_cap_witness :
  exists groups log g rs log',
    create_peer_groups_for_firm_funds default_scorer ["T"%string] cap_universe
                                      70 30 true true
      = (inr groups, log) /\
    dict_get "T" groups = Some g /\
    score_peers_for_fund default_scorer "T" cap_universe true = (inr rs, log') /\
    List.length (filter (qualifies 70) rs) = 50%nat /\
    List.length (group_peers g) = 30%nat /\
    group_peers g = firstn 30 (filter (qualifies 70) rs).
Proof.
  destruct (create_peer_groups_for_firm_funds default_scorer ["T"%string]
              cap_universe 70 30 true true) as [[e|groups] log] eqn:Hrun;
    [vm_compute in Hrun; discriminate Hrun|].
  destruct (dict_get "T" groups) as [g|] eqn:Hget.
  2:{ vm_compute in Hrun. inversion Hrun; subst groups.
      vm_compute in Hget. discriminate Hget. }
  destruct (peer_group_threshold_then_cap default_scorer cap_universe 70 30
              true ["T"%string] true groups log "T" g)
    as [rs [log' [Hret [Hpeers [_ [Hlen _]]]]]];
    [lia | exact Hrun | exact Hget |].
  assert (H50 : List.length (filter (qualifies 70) rs) = 50%nat).
  { vm_compute in Hret. inversion Hret. vm_compute. reflexivity. }
  exists groups, log, g, rs, log'.
  repeat split; try assumption.
  rewrite Hlen, H50. reflexivity.
Defined.

(** * Further properties of the scorers and the aggregator *)

Lemma lower_ascii_idempotent (c : ascii) :
  Str.lower_ascii (Str.lower_ascii c) = Str.lower_ascii c.
Proof.
  destruct c as [[] [] [] [] [] [] [] []]; reflexivity.
Qed.

Lemma lower_idempotent (s : string) : Str.lower (Str.lower s) = Str.lower s.
Proof.
  induction s as [|c r IH]; simpl; [reflexivity|].
  now rewrite lower_ascii_idempotent, IH.
Qed.

(** X1: region and sector labels are compared without regard to letter case:
    the two scores only depend on the lower-cased labels. *)
Theorem region_sector_case_insensitive (a b : string) :
  region_score (Some a) (Some b)
    = region_score (Some (Str.lower a)) (Some (Str.lower b)) /\
  sector_score (Some a) (Some b)
    = sector_score (Some (Str.lower a)) (Some (Str.lower b)).
Proof.
  unfold region_score, sector_score.
  now rewrite !lower_idempotent.
Qed.

Lemma score_map_get_100 (d : Q) :
  score_map_get d 0 = 100 <-> (d == 0)%Q.
Proof.
  unfold score_map_get, score_map, find, fst, snd.
  change (inject_Z 0) with 0%Q.
  destruct (Qeq_bool 0 d) eqn:E0.
  - apply Qeq_bool_iff in E0. split; [intros _; now symmetry|reflexivity].
  - split.
    + repeat match goal with
             | |- context [Qeq_bool ?a ?b] => destruct (Qeq_bool a b)
             end; discriminate.
    + intros Hd. symmetry in Hd. apply Qeq_bool_iff in Hd. congruence.
Qed.

Lemma Qabs_zero_iff (q : Q) : (Qabs q == 0)%Q <-> (q == 0)%Q.
Proof.
  split; intros H.
  - apply Qle_antisym.
    + rewrite <- H. apply Qle_Qabs.
    + assert (Hn : (- q <= 0)%Q).
      { rewrite <- H, <- Qabs_opp. apply Qle_Qabs. }
      lra.
  - now rewrite H.
Qed.

Lemma region_similarity_get_not_100 (key : string * string) :
  region_similarity_get key 0 <> 100.
Proof.
  unfold region_similarity_get, region_similarity, find, fst, snd.
  repeat match goal with
         | |- context [(String.eqb ?a ?b && String.eqb ?c ?d)%bool] =>
             destruct (String.eqb a b && String.eqb c d)%bool
         end; discriminate.
Qed.

(** X2: a component score of 100 means a match: both values are present and
    equal (currency, passive flag), numerically equal (fee band) or equal
    up to letter case (region, sector).  A missing value never scores
    100, not even against itself. *)
Theorem full_component_score_iff_match :
  (forall c1 c2, currency_score c1 c2 = 100 <->
                 exists a, c1 = Some a /\ c2 = Some a) /\
  (forall p1 p2, passive_score p1 p2 = 100 <->
                 exists a, p1 = Some a /\ p2 = Some a) /\
  (forall b1 b2, fee_band_score b1 b2 = 100 <->
                 exists x y, b1 = Some x /\ b2 = Some y /\ (x == y)%Q) /\
  (forall r1 r2, region_score r1 r2 = 100 <->
                 exists x y, r1 = Some x /\ r2 = Some y /\
                             Str.lower x = Str.lower y) /\
  (forall s1 s2, sector_score s1 s2 = 100 <->
                 exists x y, s1 = Some x /\ s2 = Some y /\
                             Str.lower x = Str.lower y).
Proof.
  split; [|split; [|split; [|split]]].
  - intros [a|] [b|]; simpl;
      try (split; [discriminate | intros [x [H1 H2]]; discriminate]).
    destruct (String.eqb_spec a b) as [->|Hne]; split.
    + intros _. now exists b.
    + reflexivity.
    + discriminate.
    + intros [x [H1 H2]]. congruence.
  - intros [a|] [b|]; simpl;
      try (split; [discriminate | intros [x [H1 H2]]; discriminate]).
    destruct (Bool.eqb a b) eqn:E; split.
    + intros _. apply Bool.eqb_prop in E. subst. now exists b.
    + reflexivity.
    + discriminate.
    + intros [x [H1 H2]]. inversion H1; inversion H2; subst.
      now rewrite Bool.eqb_reflx in E.
  - intros [a|] [b|]; unfold fee_band_score;
      try (split; [discriminate | intros [x [y [H1 [H2 _]]]]; discriminate]).
    rewrite score_map_get_100, Qabs_zero_iff. split.
    + intros H. exists a, b. repeat split. lra.
    + intros [x [y [H1 [H2 H]]]]. inversion H1; inversion H2; subst. lra.
  - intros [a|] [b|]; unfold region_score;
      try (split; [discriminate | intros [x [y [H1 [H2 _]]]]; discriminate]).
    destruct (String.eqb_spec (Str.lower a) (Str.lower b)) as [E|Hne]; split.
    + intros _. now exists a, b.
    + reflexivity.
    + intros H. now destruct (region_similarity_get_not_100 _ H).
    + intros [x [y [H1 [H2 H]]]]. inversion H1; inversion H2; subst.
      now destruct Hne.
  - intros [a|] [b|]; unfold sector_score;
      try (split; [discriminate | intros [x [y [H1 [H2 _]]]]; discriminate]).
    destruct (String.eqb_spec (Str.lower a) (Str.lower b)) as [E|Hne]; split.
    + intros _. now exists a, b.
    + reflexivity.
    + destruct (sectors_related (Str.lower a) (Str.lower b)); discriminate.
    + intros [x [y [H1 [H2 H]]]]. inversion H1; inversion H2; subst.
      now destruct Hne.
Qed.

(** X3: swapping the two funds changes neither the overall score nor the
    component scores. *)
Theorem calculate_peer_score_symmetric (self : FIPeerScoring)
    (fund1 fund2 : Fund) :
  calculate_peer_score self fund1 fund2 = calculate_peer_score self fund2 fund1.
Proof.
  unfold calculate_peer_score.
  rewrite (currency_score_comm (currency fund1)),
          (passive_score_comm (is_passive fund1)),
          (fee_band_score_comm (fee_band fund1)),
          (region_score_comm (region fund1)),
          (sector_score_comm (primary_sector fund1)).
  reflexivity.
Qed.

Definition positive_weights (w : Weights) : Prop :=
  forall c, (0 < weight_of w c)%Q.

Definition all_100 : Scores :=
  {| s_currency := 100; s_passive := 100; s_fee := 100;
     s_region := 100; s_sector := 100 |}.

Lemma weighted_term_full (s : Z) (w : Q) :
  0 <= s <= 100 -> (0 < w)%Q ->
  (inject_Z s * w / 100 == w)%Q -> s = 100.
Proof.
  intros [Hs0 Hs100] Hw H.
  assert (E : (inject_Z s == 100)%Q).
  { assert (H' : (inject_Z s * w == 100 * w)%Q).
    { unfold Qdiv in H. change (/ 100)%Q with (1 # 100)%Q in H. lra. }
    apply Qmult_inj_r in H'; [exact H'|].
    intros Hz. rewrite Hz in Hw. discriminate Hw. }
  exact (proj1 (inject_Z_injective s 100) E).
Qed.

Lemma weighted_sum_full_iff (w : Weights) (sc : Scores) :
  positive_weights w -> scores_in_range sc ->
  (weighted_sum w sc == sum_weights w)%Q <-> sc = all_100.
Proof.
  intros Hpos Hs.
  assert (Hnn : nonneg_weights w).
  { intros c. apply Qlt_le_weak, Hpos. }
  split.
  - intros Heq.
    rewrite weighted_sum_unfold, sum_weights_unfold in Heq.
    pose proof (weighted_term_range _ _ (Hs Currency) (Hnn Currency)) as [? ?].
    pose proof (weighted_term_range _ _ (Hs Passive) (Hnn Passive)) as [? ?].
    pose proof (weighted_term_range _ _ (Hs Fee) (Hnn Fee)) as [? ?].
    pose proof (weighted_term_range _ _ (Hs Region) (Hnn Region)) as [? ?].
    pose proof (weighted_term_range _ _ (Hs Sector) (Hnn Sector)) as [? ?].
    pose proof (weighted_term_full _ _ (Hs Currency) (Hpos Currency)) as E1.
    pose proof (weighted_term_full _ _ (Hs Passive) (Hpos Passive)) as E2.
    pose proof (weighted_term_full _ _ (Hs Fee) (Hpos Fee)) as E3.
    pose proof (weighted_term_full _ _ (Hs Region) (Hpos Region)) as E4.
    pose proof (weighted_term_full _ _ (Hs Sector) (Hpos Sector)) as E5.
    destruct sc as [a b c d e]; simpl in *. unfold all_100.
    rewrite E1, E2, E3, E4, E5 by lra. reflexivity.
  - intros ->. rewrite weighted_sum_unfold, sum_weights_unfold.
    simpl. field.
Qed.

(** X4: with five positive weights the overall score equals the weight total
    exactly when all five components score 100; any mismatch or missing
    value keeps it strictly below. *)
Theorem overall_full_iff_all_components_full (self : FIPeerScoring)
    (fund1 fund2 : Fund) :
  positive_weights (weights self) ->
  ((fst (calculate_peer_score self fund1 fund2)
      == sum_weights (weights self))%Q <->
   snd (calculate_peer_score self fund1 fund2) = all_100) /\
  (snd (calculate_peer_score self fund1 fund2) <> all_100 ->
   (fst (calculate_peer_score self fund1 fund2)
      < sum_weights (weights self))%Q).
Proof.
  intros Hpos.
  pose proof (calculate_peer_score_scores_in_range self fund1 fund2) as Hs.
  pose proof (weighted_sum_full_iff (weights self) _ Hpos Hs) as Hiff.
  split; [exact Hiff|].
  intros Hne.
  assert (Hnn : nonneg_weights (weights self)).
  { intros c. apply Qlt_le_weak, Hpos. }
  destruct (weighted_sum_range (weights self) _ Hnn Hs) as [_ Hle].
  apply Qle_lteq in Hle. destruct Hle as [Hlt|Heq]; [exact Hlt|].
  destruct Hne. now apply Hiff.
Qed.

Lemma default_weights_positive : positive_weights (weights default_scorer).
Proof. intros [| | | |]; reflexivity. Qed.

Lemma overall_full_iff_all_components_full_witness :
  (fst (calculate_peer_score default_scorer fund_A fund_B)
     < sum_weights (weights default_scorer))%Q /\
  (fst (calculate_peer_score default_scorer fund_A fund_A) == 100)%Q.
Proof.
  split.
  - apply (proj2 (overall_full_iff_all_components_full default_scorer
                    fund_A fund_B default_weights_positive)).
    discriminate.
  - apply (proj1 (overall_full_iff_all_components_full default_scorer
                    fund_A fund_A default_weights_positive)).
    reflexivity.
Defined.

Definition region_pair_40 (x y : string) : Prop :=
  (x = "other" /\ (y = "emerging" \/ y = "developed"))%string \/
  (y = "other" /\ (x = "emerging" \/ x = "developed"))%string.

Definition region_pair_20 (x y : string) : Prop :=
  (x = "emerging" /\ y = "developed")%string \/
  (x = "developed" /\ y = "emerging")%string.

Lemma region_similarity_get_cases (x y : string) :
  x <> y ->
  (region_similarity_get (x, y) 0 = 40 <-> region_pair_40 x y) /\
  (region_similarity_get (x, y) 0 = 20 <-> region_pair_20 x y) /\
  (region_similarity_get (x, y) 0 = 0 <->
     ~ region_pair_40 x y /\ ~ region_pair_20 x y).
Proof.
  intros Hne.
  unfold region_similarity_get, region_similarity, find, fst, snd,
    region_pair_40, region_pair_20.
  destruct (String.eqb_spec "emerging" x) as [Ex|Ex];
    destruct (String.eqb_spec "other" x) as [Ox|Ox];
    destruct (String.eqb_spec "developed" x) as [Dx|Dx];
    try (subst x; discriminate);
    destruct (String.eqb_spec "emerging" y) as [Ey|Ey];
    destruct (String.eqb_spec "other" y) as [Oy|Oy];
    destruct (String.eqb_spec "developed" y) as [Dy|Dy];
    try (subst y; discriminate);
    try subst x; try subst y; simpl;
    repeat split; intros; try discriminate; try congruence;
    intuition (try discriminate; try congruence).
Qed.

(** X5: two present regions that differ after lower-casing score 40 exactly
    when one is "other" and the other is "emerging" or "developed", 20
    exactly when they are "emerging" and "developed", and 0 in every
    other case, so a label outside the three names scores 0 against
    every different label. *)
Theorem region_score_partial_credit (a b : string) :
  let x := Str.lower a in
  let y := Str.lower b in
  (region_score (Some a) (Some b) = 40 <-> region_pair_40 x y) /\
  (region_score (Some a) (Some b) = 20 <-> region_pair_20 x y) /\
  (region_score (Some a) (Some b) = 0 <->
     x <> y /\ ~ region_pair_40 x y /\ ~ region_pair_20 x y).
Proof.
  intros x y. unfold region_score. fold x. fold y.
  destruct (String.eqb_spec x y) as [E|Hne].
  - unfold region_pair_40, region_pair_20. rewrite E.
    repeat split; intros; try discriminate; try congruence;
      intuition (try discriminate; try congruence).
  - destruct (region_similarity_get_cases x y Hne) as [H40 [H20 H0]].
    split; [exact H40|]. split; [exact H20|].
    rewrite H0. intuition.
Qed.

(** A group of [related_sectors] links two labels when its name occurs
    in one of them and one of its related terms occurs in one of them. *)
Definition linked_by (main related s1 s2 : string) : Prop :=
  (Str.contains main s1 = true \/ Str.contains main s2 = true) /\
  (Str.contains related s1 = true \/ Str.contains related s2 = true).

Lemma sectors_related_iff (s1 s2 : string) :
  sectors_related s1 s2 = true <->
  exists main related_list related,
    In (main, related_list) related_sectors /\ In related related_list /\
    linked_by main related s1 s2.
Proof.
  unfold sectors_related, linked_by. rewrite existsb_exists. split.
  - intros [[main related_list] [Hin H]]. simpl in H.
    apply andb_true_iff in H. destruct H as [Hmain Hrel].
    apply existsb_exists in Hrel. destruct Hrel as [related [Hr Hrel]].
    apply orb_true_iff in Hmain. apply orb_true_iff in Hrel.
    now exists main, related_list, related.
  - intros [main [related_list [related [Hin [Hr [Hmain Hrel]]]]]].
    exists (main, related_list). split; [exact Hin|]. simpl.
    apply andb_true_iff. split.
    + now apply orb_true_iff.
    + apply existsb_exists. exists related. split; [exact Hr|].
      now apply orb_true_iff.
Qed.

(** X6: two present sector labels that differ after lower-casing score 60
    exactly when some sector group links them, and 0 otherwise.  The
    group name and the related term may both come from the same label:
    a label that contains both scores 60 against every different
    label. *)
Theorem sector_score_related (a b : string) :
  let x := Str.lower a in
  let y := Str.lower b in
  (sector_score (Some a) (Some b) = 60 <->
     x <> y /\
     exists main related_list related,
       In (main, related_list) related_sectors /\ In related related_list /\
       linked_by main related x y) /\
  (sector_score (Some a) (Some b) = 0 \/
   sector_score (Some a) (Some b) = 60 \/
   sector_score (Some a) (Some b) = 100) /\
  (forall main related_list related,
     In (main, related_list) related_sectors -> In related related_list ->
     Str.contains main x = true -> Str.contains related x = true ->
     x <> y -> sector_score (Some a) (Some b) = 60).
Proof.
  intros x y. unfold sector_score. fold x. fold y.
  pose proof (sectors_related_iff x y) as Hrel.
  destruct (String.eqb_spec x y) as [E|Hne].
  - split; [|split].
    + split; [discriminate|]. intros [Hne _]. now destruct Hne.
    + auto.
    + intros main related_list related _ _ _ _ Hne. now destruct Hne.
  - destruct (sectors_related x y).
    + split; [|split].
      * split; [|reflexivity]. intros _. split; [exact Hne|].
        now apply Hrel.
      * auto.
      * reflexivity.
    + split; [|split].
      * split; [discriminate|]. intros [_ H].
        apply Hrel in H. discriminate H.
      * auto.
      * intros main related_list related Hin Hr Hm Hc _.
        assert (H : false = true); [|discriminate H].
        apply Hrel. exists main, related_list, related.
        unfold linked_by. auto.
Qed.

Lemma sector_score_related_witness :
  sector_score (Some "Corporate Credit"%string) (Some "Government"%string) = 60.
Proof.
  apply (proj2 (proj2 (sector_score_related "Corporate Credit" "Government"))
           "corporate"%string
           ["investment grade"; "high yield"; "credit"]%string
           "credit"%string).
  - simpl. auto.
  - simpl. auto.
  - reflexivity.
  - reflexivity.
  - discriminate.
Defined.

(** * Rounding of the scores *)

Lemma round_half_even_proper (q1 q2 : Q) :
  (q1 == q2)%Q -> round_half_even q1 = round_half_even q2.
Proof.
  intros E. unfold round_half_even, Qlt_bool.
  rewrite (Qfloor_comp _ _ E).
  assert (H1 : Qle_bool (1 # 2) (q1 - inject_Z (Qfloor q2))
               = Qle_bool (1 # 2) (q2 - inject_Z (Qfloor q2))).
  { apply Qleb_comp; [reflexivity|].
    apply Qplus_comp; [exact E|reflexivity]. }
  assert (H2 : Qle_bool (q1 - inject_Z (Qfloor q2)) (1 # 2)
               = Qle_bool (q2 - inject_Z (Qfloor q2)) (1 # 2)).
  { apply Qleb_comp; [|reflexivity].
    apply Qplus_comp; [exact E|reflexivity]. }
  rewrite H1, H2. reflexivity.
Qed.

Lemma round_half_even_close (q : Q) :
  (inject_Z (round_half_even q) - (1 # 2) <= q /\
   q <= inject_Z (round_half_even q) + (1 # 2))%Q.
Proof.
  unfold round_half_even.
  pose proof (Qfloor_le q) as Hlo.
  pose proof (Qlt_floor q) as Hhi.
  rewrite inject_Z_plus in Hhi. change (inject_Z 1) with 1%Q in Hhi.
  destruct (Qlt_bool (q - inject_Z (Qfloor q)) (1 # 2)) eqn:E1.
  { apply Qlt_bool_iff in E1. split; lra. }
  destruct (Qlt_bool (1 # 2) (q - inject_Z (Qfloor q))) eqn:E2.
  { apply Qlt_bool_iff in E2. rewrite inject_Z_plus.
    change (inject_Z 1) with 1%Q. split; lra. }
  assert (Hhalf : (q - inject_Z (Qfloor q) == 1 # 2)%Q).
  { apply Qle_antisym.
    - apply Qnot_lt_le. intros H. apply Qlt_bool_iff in H. congruence.
    - apply Qnot_lt_le. intros H. apply Qlt_bool_iff in H. congruence. }
  destruct (Z.even (Qfloor q)).
  - split; lra.
  - rewrite inject_Z_plus. change (inject_Z 1) with 1%Q. split; lra.
Qed.

Lemma round_half_even_monotone (q1 q2 : Q) :
  (q1 <= q2)%Q -> round_half_even q1 <= round_half_even q2.
Proof.
  intros Hle.
  destruct (Z_le_gt_dec (round_half_even q1) (round_half_even q2))
    as [H|Hgt]; [exact H|exfalso].
  destruct (round_half_even_close q1) as [Hlo1 _].
  destruct (round_half_even_close q2) as [_ Hhi2].
  assert (Hstep : (inject_Z (round_half_even q2) + 1
                   <= inject_Z (round_half_even q1))%Q).
  { change 1%Q with (inject_Z 1). rewrite <- inject_Z_plus.
    rewrite <- Zle_Qle. lia. }
  assert (E : (q1 == q2)%Q) by lra.
  apply round_half_even_proper in E. lia.
Qed.

Lemma round_half_even_integer (z : Z) (q : Q) :
  (q == inject_Z z)%Q -> round_half_even q = z.
Proof.
  intros E. rewrite (round_half_even_proper _ _ E).
  unfold round_half_even. rewrite Qfloor_Z.
  assert (H : Qlt_bool (inject_Z z - inject_Z z) (1 # 2) = true).
  { apply Qlt_bool_iff. lra. }
  now rewrite H.
Qed.

Lemma Qmake_100 (z : Z) : (z # 100 == inject_Z z * (1 # 100))%Q.
Proof. unfold Qeq, inject_Z. simpl. lia. Qed.

Lemma round2_close (q : Q) :
  (round2 q - (1 # 200) <= q /\ q <= round2 q + (1 # 200))%Q.
Proof.
  unfold round2. rewrite (Qmake_100 (round_half_even (q * 100))).
  destruct (round_half_even_close (q * 100)) as [Hlo Hhi].
  split; lra.
Qed.

Lemma round2_monotone (q1 q2 : Q) :
  (q1 <= q2)%Q -> (round2 q1 <= round2 q2)%Q.
Proof.
  intros Hle. unfold round2.
  rewrite (Qmake_100 (round_half_even (q1 * 100))),
          (Qmake_100 (round_half_even (q2 * 100))).
  assert (H : round_half_even (q1 * 100) <= round_half_even (q2 * 100)).
  { apply round_half_even_monotone. lra. }
  rewrite Zle_Qle in H. lra.
Qed.

Lemma round2_hundredths (z : Z) : round2 (z # 100) = (z # 100)%Q.
Proof.
  unfold round2. f_equal. apply round_half_even_integer.
  rewrite (Qmake_100 z). field.
Qed.

Lemma round2_range (q : Q) :
  (0 <= q <= 100)%Q -> (0 <= round2 q <= 100)%Q.
Proof.
  intros [Hlo Hhi]. split.
  - apply Qle_trans with (round2 (0 # 100)).
    + rewrite round2_hundredths. discriminate.
    + apply round2_monotone.
      apply Qle_trans with 0%Q; [discriminate|exact Hlo].
  - apply Qle_trans with (round2 (10000 # 100)).
    + apply round2_monotone.
      apply Qle_trans with 100%Q; [exact Hhi|discriminate].
    + rewrite round2_hundredths. discriminate.
Qed.

(** * Further properties of the peer finder *)

Lemma score_row_fields (self : FIPeerScoring) (target_fund : Fund)
    (cat : string) (f : Fund) :
  r_fund_id (score_row self target_fund cat f) = fund_id f /\
  r_morningstar_category (score_row self target_fund cat f) = cat /\
  r_is_passive (score_row self target_fund cat f) = is_passive f /\
  peer_score (score_row self target_fund cat f)
    = round2 (fst (calculate_peer_score self target_fund f)) /\
  r_scores (score_row self target_fund cat f)
    = snd (calculate_peer_score self target_fund f).
Proof.
  unfold score_row.
  destruct (calculate_peer_score self target_fund f); simpl.
  repeat split.
Qed.

Section PeerFinderMore.

Context {sorter : SortValues}.

(** Every way [score_peers_for_fund] can return. *)
Lemma score_peers_for_fund_inv (self : FIPeerScoring) (fid : string)
    (df : list Fund) (exclude_passive : bool) (rs : list PeerResult)
    (log : list Message) :
  score_peers_for_fund self fid df exclude_passive = (inr rs, log) ->
  exists target_fund others,
    rows_of fid df = target_fund :: others /\
    ((morningstar_category target_fund = None /\
      rs = [] /\ log = [WarnNoCategory fid]) \/
     (exists cat,
        morningstar_category target_fund = Some cat /\
        Permutation
          (map (score_row self target_fund cat)
               (same_category_funds target_fund fid cat df exclude_passive))
          rs /\
        ((same_category_funds target_fund fid cat df exclude_passive = [] /\
          rs = [] /\ log = [NoComparableFunds cat]) \/
         (same_category_funds target_fund fid cat df exclude_passive <> [] /\
          rs <> [] /\ log = [])))).
Proof.
  intros Hret.
  destruct (rows_of fid df) as [|target_fund others] eqn:Hrows.
  - unfold score_peers_for_fund in Hret. rewrite Hrows in Hret.
    discriminate Hret.
  - exists target_fund, others. split; [reflexivity|].
    rewrite (score_peers_for_fund_found self fid df exclude_passive _ _ Hrows)
      in Hret.
    destruct (morningstar_category target_fund) as [cat|].
    + right. exists cat. split; [reflexivity|].
      destruct (same_category_funds target_fund fid cat df exclude_passive)
        as [|c cs]; inversion Hret; subst.
      * split; [constructor|]. left. auto.
      * split; [apply sort_values_perm|]. right.
        split; [discriminate|]. split; [|reflexivity].
        intros Hnil.
        pose proof (Permutation_length
                      (sort_values_perm
                         (map (score_row self target_fund cat) (c :: cs))))
          as Hlen.
        simpl in Hlen, Hnil. rewrite Hnil in Hlen. discriminate Hlen.
    + left. inversion Hret. auto.
Qed.

(** X7: the target is never among its own peers: every returned row is a
    fund of the table other than the target, of the target's category,
    scored against the target's first row; and there is one row per
    candidate. *)
Theorem score_peers_for_fund_rows_from_table (self : FIPeerScoring)
    (fid : string) (df : list Fund) (exclude_passive : bool)
    (rs : list PeerResult) (log : list Message) :
  score_peers_for_fund self fid df exclude_passive = (inr rs, log) ->
  exists target_fund others,
    rows_of fid df = target_fund :: others /\
    (forall r, In r rs ->
       r_fund_id r <> fid /\
       morningstar_category target_fund = Some (r_morningstar_category r) /\
       exists f, In f df /\
                 morningstar_category f = Some (r_morningstar_category r) /\
                 r = score_row self target_fund (r_morningstar_category r) f) /\
    (forall cat, morningstar_category target_fund = Some cat ->
       List.length rs =
         List.length (same_category_funds target_fund fid cat df
                                          exclude_passive)).
Proof.
  intros Hret.
  destruct (score_peers_for_fund_inv _ _ _ _ _ _ Hret)
    as [target_fund [others [Hrows Hcases]]].
  exists target_fund, others. split; [exact Hrows|].
  destruct Hcases as [[Hnone [-> _]]|[cat [Hcat [Hperm _]]]].
  - split; [intros r []|]. intros cat Hcat. congruence.
  - split.
    + intros r Hr.
      apply (Permutation_in _ (Permutation_sym Hperm)) in Hr.
      apply in_map_iff in Hr. destruct Hr as [f [<- Hf]].
      apply same_category_funds_In in Hf.
      destruct Hf as [Hin [Hc [Hne _]]].
      destruct (score_row_fields self target_fund cat f)
        as [Hid [Hrc _]].
      rewrite Hid, Hrc. split; [exact Hne|]. split; [exact Hcat|].
      now exists f.
    + intros cat' Hcat'. rewrite Hcat in Hcat'. inversion Hcat'; subst cat'.
      rewrite <- (Permutation_length Hperm). apply length_map.
Qed.

(** X8: an empty result always comes with exactly one message (missing
    category, or no comparable fund), and a non-empty result with
    none. *)
Theorem score_peers_for_fund_empty_iff_warned (self : FIPeerScoring)
    (fid : string) (df : list Fund) (exclude_passive : bool)
    (rs : list PeerResult) (log : list Message) :
  score_peers_for_fund self fid df exclude_passive = (inr rs, log) ->
  (rs = [] /\
   (log = [WarnNoCategory fid] \/ exists cat, log = [NoComparableFunds cat])) \/
  (rs <> [] /\ log = []).
Proof.
  intros Hret.
  destruct (score_peers_for_fund_inv _ _ _ _ _ _ Hret)
    as [target_fund [others [_ Hcases]]].
  destruct Hcases as [[_ [-> ->]]|[cat [_ [_ [[_ [-> ->]]|[_ [Hne ->]]]]]]].
  - left. auto.
  - left. split; [reflexivity|]. right. now exists cat.
  - right. auto.
Qed.

(** X9: without the passive filter every other fund of the target's category
    is returned.  The filter is off when [exclude_passive] is false and
    also when the target's own passive flag is true. *)
Theorem score_peers_for_fund_unfiltered (self : FIPeerScoring) (fid : string)
    (df : list Fund) (exclude_passive : bool) (target_fund : Fund)
    (others : list Fund) (cat : string) :
  rows_of fid df = target_fund :: others ->
  morningstar_category target_fund = Some cat ->
  exclude_passive = false \/ is_passive target_fund = Some true ->
  exists rs log,
    score_peers_for_fund self fid df exclude_passive = (inr rs, log) /\
    forall f, In f df -> morningstar_category f = Some cat ->
              fund_id f <> fid ->
              In (score_row self target_fund cat f) rs.
Proof.
  intros Hrows Hcat Hoff.
  destruct (score_peers_for_fund_rows self fid df exclude_passive _ _ _
              Hrows Hcat) as [rs [log [Hret Hperm]]].
  exists rs, log. split; [exact Hret|].
  intros f Hin Hc Hne.
  apply (Permutation_in _ Hperm). apply in_map.
  apply same_category_funds_In. repeat split; try assumption.
  intros Hfilter. exfalso.
  destruct Hoff as [->|Hp].
  - discriminate Hfilter.
  - rewrite Hp in Hfilter. simpl in Hfilter.
    rewrite andb_false_r in Hfilter. discriminate Hfilter.
Qed.

(** X10: a target whose own passive flag is missing is treated like a passive
    one: the missing value is true in the condition, so the passive
    filter is skipped and passive candidates stay. *)
Theorem score_peers_for_fund_missing_flag_unfiltered (self : FIPeerScoring)
    (fid : string) (df : list Fund) (target_fund : Fund)
    (others : list Fund) (cat : string) :
  rows_of fid df = target_fund :: others ->
  morningstar_category target_fund = Some cat ->
  is_passive target_fund = None ->
  score_peers_for_fund self fid df true = score_peers_for_fund self fid df false /\
  exists rs log,
    score_peers_for_fund self fid df true = (inr rs, log) /\
    forall f, In f df -> morningstar_category f = Some cat ->
              fund_id f <> fid -> is_passive f = Some true ->
              In (score_row self target_fund cat f) rs.
Proof.
  intros Hrows Hcat Hnan.
  assert (Hsame : same_category_funds target_fund fid cat df true
                  = same_category_funds target_fund fid cat df false).
  { unfold same_category_funds. now rewrite Hnan. }
  split.
  - rewrite !(score_peers_for_fund_found self fid df _ _ _ Hrows).
    now rewrite Hcat, Hsame.
  - destruct (score_peers_for_fund_rows self fid df true _ _ _ Hrows Hcat)
      as [rs [log [Hret Hperm]]].
    exists rs, log. split; [exact Hret|].
    intros f Hin Hc Hne _.
    apply (Permutation_in _ Hperm). apply in_map.
    apply same_category_funds_In. repeat split; try assumption.
    rewrite Hnan. intros Habs. discriminate Habs.
Qed.

(** X11: the stored [peer_score] is the weighted overall score rounded to two
    decimals: it is within 0.005 of it and grows with it; and when the
    weights are non-negative and sum to 100, every returned row has its
    five component scores and its [peer_score] in [0, 100]. *)
Theorem peer_score_rounds_overall (self : FIPeerScoring) (fid : string)
    (df : list Fund) (exclude_passive : bool) (rs : list PeerResult)
    (log : list Message) :
  score_peers_for_fund self fid df exclude_passive = (inr rs, log) ->
  exists target_fund others,
    rows_of fid df = target_fund :: others /\
    (forall r, In r rs ->
       exists f, In f df /\ r_fund_id r = fund_id f /\
         let overall := fst (calculate_peer_score self target_fund f) in
         (peer_score r - (1 # 200) <= overall <= peer_score r + (1 # 200))%Q /\
         r_scores r = snd (calculate_peer_score self target_fund f) /\
         (nonneg_weights (weights self) ->
          (sum_weights (weights self) == 100)%Q ->
          (0 <= peer_score r <= 100)%Q)) /\
    (forall f1 f2,
       (fst (calculate_peer_score self target_fund f1)
          <= fst (calculate_peer_score self target_fund f2))%Q ->
       forall cat,
         (peer_score (score_row self target_fund cat f1)
            <= peer_score (score_row self target_fund cat f2))%Q).
Proof.
  intros Hret.
  destruct (score_peers_for_fund_inv _ _ _ _ _ _ Hret)
    as [target_fund [others [Hrows Hcases]]].
  exists target_fund, others. split; [exact Hrows|]. split.
  - intros r Hr.
    destruct Hcases as [[_ [-> _]]|[cat [_ [Hperm _]]]]; [destruct Hr|].
    apply (Permutation_in _ (Permutation_sym Hperm)) in Hr.
    apply in_map_iff in Hr. destruct Hr as [f [<- Hf]].
    apply same_category_funds_In in Hf. destruct Hf as [Hin _].
    destruct (score_row_fields self target_fund cat f)
      as [Hid [_ [_ [Hps Hsc]]]].
    exists f. split; [exact Hin|]. split; [exact Hid|].
    rewrite Hps, Hsc. split; [|split; [reflexivity|]].
    + destruct (round2_close (fst (calculate_peer_score self target_fund f))).
      split; assumption.
    + intros Hnn Hsum. apply round2_range.
      destruct (weighted_sum_range (weights self)
                  (snd (calculate_peer_score self target_fund f)) Hnn
                  (calculate_peer_score_scores_in_range self target_fund f))
        as [Hlo Hhi].
      simpl in *. rewrite Hsum in Hhi. split; assumption.
  - intros f1 f2 Hle cat.
    destruct (score_row_fields self target_fund cat f1) as [_ [_ [_ [-> _]]]].
    destruct (score_row_fields self target_fund cat f2) as [_ [_ [_ [-> _]]]].
    now apply round2_monotone.
Qed.

End PeerFinderMore.

(** * Further properties of the peer group builder *)

Lemma dict_get_keys (k : string) (d : Dict) :
  dict_get k d <> None <-> In k (map fst d).
Proof.
  induction d as [|[k' v'] rest IH]; simpl.
  - split; [intros H; now destruct H|intros []].
  - destruct (String.eqb_spec k' k) as [->|Hne].
    + split; [auto|discriminate].
    + rewrite IH. split; [auto|]. intros [H|H]; [now destruct Hne|exact H].
Qed.

Lemma dict_set_keys (k k' : string) (v : PeerGroup) (d : Dict) :
  In k' (map fst (dict_set k v d)) <-> k' = k \/ In k' (map fst d).
Proof.
  rewrite <- !dict_get_keys.
  destruct (String.eqb_spec k' k) as [->|Hne].
  - rewrite dict_get_set_same. split; [auto|discriminate].
  - rewrite dict_get_set_other by exact Hne.
    split; [auto|]. intros [H|H]; [now destruct Hne|exact H].
Qed.

Lemma dict_set_NoDup (k : string) (v : PeerGroup) (d : Dict) :
  NoDup (map fst d) -> NoDup (map fst (dict_set k v d)).
Proof.
  induction d as [|[k' v'] rest IH]; simpl; intros Hnd.
  - constructor; [intros []|constructor].
  - inversion Hnd as [|? ? Hnotin Hrest]; subst.
    destruct (String.eqb_spec k' k) as [->|Hne]; simpl.
    + now constructor.
    + constructor; [|now apply IH].
      intros Hin. apply dict_set_keys in Hin.
      destruct Hin as [->|Hin]; [now destruct Hne|now destruct Hnotin].
Qed.

Lemma fold_left_Qplus_bounds (l : list Q) (lo hi acc : Q) :
  (forall x, In x l -> (lo <= x <= hi)%Q) ->
  (acc + inject_Z (Z.of_nat (List.length l)) * lo <= fold_left Qplus l acc /\
   fold_left Qplus l acc <= acc + inject_Z (Z.of_nat (List.length l)) * hi)%Q.
Proof.
  revert acc. induction l as [|x xs IH]; intros acc Hb.
  - change (fold_left Qplus [] acc) with acc.
    change (inject_Z (Z.of_nat (@List.length Q []))) with 0%Q.
    split; lra.
  - assert (Hx : (lo <= x <= hi)%Q) by (apply Hb; now left).
    destruct (IH (acc + x)%Q) as [Hlo Hhi].
    { intros y Hy. apply Hb. now right. }
    change (fold_left Qplus (x :: xs) acc) with (fold_left Qplus xs (acc + x)%Q).
    replace (List.length (x :: xs)) with (S (List.length xs)) by reflexivity.
    rewrite Nat2Z.inj_succ. unfold Z.succ. rewrite inject_Z_plus.
    change (inject_Z 1) with 1%Q.
    destruct Hx as [Hx1 Hx2].
    revert Hlo Hhi.
    generalize (fold_left Qplus xs (acc + x)%Q).
    generalize (inject_Z (Z.of_nat (List.length xs))).
    intros n s Hlo Hhi. split; nra.
Qed.

Lemma mean_bounds (l : list Q) (lo hi : Q) :
  l <> [] -> (forall x, In x l -> (lo <= x <= hi)%Q) ->
  (lo <= mean l <= hi)%Q.
Proof.
  intros Hne Hb.
  destruct (fold_left_Qplus_bounds l lo hi 0 Hb) as [Hlo Hhi].
  unfold mean.
  set (n := inject_Z (Z.of_nat (List.length l))) in *.
  assert (Hn : (0 < n)%Q).
  { unfold n. change 0%Q with (inject_Z 0). rewrite <- Zlt_Qlt.
    destruct l; [now destruct Hne|simpl; lia]. }
  split.
  - apply Qle_shift_div_l; [exact Hn|]. lra.
  - apply Qle_shift_div_r; [exact Hn|]. lra.
Qed.

(** The four score bands split any table of rows. *)
Lemma score_distribution_partition (rs : list PeerResult) :
  (d_90_100 (score_distribution_of rs) + d_80_89 (score_distribution_of rs)
   + d_70_79 (score_distribution_of rs) + d_below_70 (score_distribution_of rs)
   = List.length rs)%nat.
Proof.
  unfold score_distribution_of, count, Qlt_bool; simpl.
  induction rs as [|r rs' IH]; simpl; [reflexivity|].
  assert (H98 : Qle_bool 90 (peer_score r) = true ->
                Qle_bool 80 (peer_score r) = true).
  { rewrite !Qle_bool_iff. intros H.
    apply Qle_trans with 90%Q; [discriminate|exact H]. }
  assert (H87 : Qle_bool 80 (peer_score r) = true ->
                Qle_bool 70 (peer_score r) = true).
  { rewrite !Qle_bool_iff. intros H.
    apply Qle_trans with 80%Q; [discriminate|exact H]. }
  destruct (Qle_bool 90 (peer_score r)), (Qle_bool 80 (peer_score r)),
    (Qle_bool 70 (peer_score r)); simpl;
    try (specialize (H98 eq_refl); discriminate H98);
    try (specialize (H87 eq_refl); discriminate H87);
    lia.
Qed.

Lemma head_is_firstn {A} (n : Z) (l : list A) :
  exists m, head n l = firstn m l.
Proof.
  unfold head. destruct (0 <=? n); eexists; reflexivity.
Qed.

Lemma StronglySorted_firstn {A} (R : A -> A -> Prop) (m : nat) (l : list A) :
  StronglySorted R l -> StronglySorted R (firstn m l).
Proof.
  intros Hs. rewrite <- (firstn_skipn m l) in Hs.
  revert Hs. generalize (skipn m l). generalize (firstn m l).
  intros l1 l2. induction l1 as [|x xs IH]; simpl; intros Hs.
  - constructor.
  - inversion Hs as [|? ? Hs' Hx]; subst.
    constructor; [now apply IH|].
    rewrite Forall_forall in *. intros y Hy. apply Hx.
    apply in_or_app. now left.
Qed.

Lemma last_default_irrelevant {A} (a : A) (l : list A) (d d' : A) :
  last (a :: l) d = last (a :: l) d'.
Proof.
  revert a. induction l as [|b l' IH]; intros a; [reflexivity|].
  exact (IH b).
Qed.

Lemma last_cons_default {A} (z : A) (zs : list A) (x : A) :
  last (z :: zs) x = last zs z.
Proof.
  destruct zs as [|w ws]; [reflexivity|].
  exact (last_default_irrelevant w ws x z).
Qed.

Lemma last_In {A} (l : list A) (x : A) : In (last l x) (x :: l).
Proof.
  revert x. induction l as [|z zs IH]; intros x; [now left|].
  rewrite last_cons_default. right. apply IH.
Qed.

Lemma StronglySorted_last {A} (R : A -> A -> Prop) (l : list A) :
  (forall a, R a a) ->
  forall x, StronglySorted R (x :: l) ->
  forall y, In y (x :: l) -> R x y /\ R y (last l x).
Proof.
  intros Hrefl. induction l as [|z zs IH]; intros x Hs y Hy.
  - destruct Hy as [<-|[]]. simpl. auto.
  - inversion Hs as [|? ? Hs' Hx]; subst.
    rewrite Forall_forall in Hx. rewrite last_cons_default.
    destruct Hy as [<-|Hy].
    + split; [apply Hrefl|]. apply Hx. apply last_In.
    + split; [now apply Hx|]. now apply (IH z Hs' y).
Qed.

Lemma rows_of_nonempty_iff (fid : string) (df : list Fund) :
  rows_of fid df <> [] <-> exists f, In f df /\ fund_id f = fid.
Proof.
  split.
  - intros Hne.
    destruct (rows_of fid df) as [|f fs] eqn:E; [now destruct Hne|].
    assert (Hf : In f (rows_of fid df)) by (rewrite E; now left).
    unfold rows_of in Hf. apply filter_In in Hf. destruct Hf as [Hin Heq].
    apply String.eqb_eq in Heq. now exists f.
  - intros [f [Hin Heq]] Hnil.
    exact (proj1 (rows_of_nil_iff fid df) Hnil f Hin Heq).
Qed.

Lemma peer_group_of_Peers (nm ct : option string) (rs : list PeerResult)
    (min_score : Q) (max_peers : Z) (name category : option string)
    (n : nat) (avg : Q) (peers : list PeerResult) (total : nat)
    (dist : ScoreDistribution) :
  peer_group_of nm ct rs min_score max_peers
    = Peers name category n avg peers total dist ->
  rs <> [] /\
  peers = head max_peers (filter (qualifies min_score) rs) /\
  n = List.length peers /\
  total = (List.length rs + 1)%nat /\
  dist = score_distribution_of rs /\
  avg = match peers with
        | [] => 0%Q
        | _ :: _ => round2 (mean (map peer_score peers))
        end.
Proof.
  destruct rs as [|r rs']; simpl; [discriminate|].
  intros H. inversion H; subst. repeat split. discriminate.
Qed.

Section PeerGroupMore.

Context {sorter : SortValues}.

Variable self : FIPeerScoring.
Variable df : list Fund.
Variable min_score : Q.
Variable max_peers : Z.
Variable exclude_passive : bool.

Lemma process_fund_keys (st : Dict * list SummaryStat) (fid : string) :
  exists st' log,
    process_fund self df min_score max_peers exclude_passive st fid
      = (inr st', log) /\
    (forall k, In k (map fst (fst st')) <->
               In k (map fst (fst st)) \/ (k = fid /\ rows_of fid df <> [])) /\
    (NoDup (map fst (fst st)) -> NoDup (map fst (fst st'))) /\
    (rows_of fid df = [] -> In (WarnFundNotFound fid) log).
Proof.
  unfold process_fund.
  destruct (rows_of fid df) as [|fund_row others] eqn:E.
  - exists st, [WarnFundNotFound fid]. split; [reflexivity|].
    split; [|split; [auto|intros _; now left]].
    intros k. split; [auto|]. intros [H|[_ H]]; [exact H|now destruct H].
  - destruct (score_peers_for_fund_returns self fid df exclude_passive)
      as [rs [log Hret]]; [now rewrite E|].
    rewrite Hret. unfold bind, print, ret.
    eexists _, _. split; [reflexivity|]. simpl.
    split; [|split].
    + intros k. rewrite dict_set_keys. split.
      * intros [->|H]; [right; split; [reflexivity|discriminate]|now left].
      * intros [H|[-> _]]; [now right|now left].
    + apply dict_set_NoDup.
    + discriminate.
Qed.

Lemma process_funds_keys (ids : list string) :
  forall st,
  exists st' log,
    process_funds self df min_score max_peers exclude_passive ids st
      = (inr st', log) /\
    (forall k, In k (map fst (fst st')) <->
               In k (map fst (fst st)) \/ (In k ids /\ rows_of k df <> [])) /\
    (NoDup (map fst (fst st)) -> NoDup (map fst (fst st'))) /\
    (forall k, In k ids -> rows_of k df = [] -> In (WarnFundNotFound k) log).
Proof.
  induction ids as [|fid rest IH]; intros st; simpl.
  - exists st, []. split; [reflexivity|].
    split; [|split; [auto|intros k []]].
    intros k. split; [auto|]. intros [H|[[] _]]. exact H.
  - destruct (process_fund_keys st fid)
      as [st1 [log1 [Hstep [Hkeys1 [Hnd1 Hlog1]]]]].
    destruct (IH st1) as [st2 [log2 [Hrest [Hkeys2 [Hnd2 Hlog2]]]]].
    rewrite Hstep. unfold bind. rewrite Hrest.
    exists st2, (log1 ++ log2). split; [reflexivity|].
    split; [|split].
    + intros k. rewrite Hkeys2, Hkeys1. split.
      * intros [[H|[-> H]]|[H1 H2]]; auto.
      * intros [H|[[<-|H1] H2]]; auto.
    + auto.
    + intros k [<-|Hin] Hrows; apply in_or_app.
      * left. now apply Hlog1.
      * right. now apply Hlog2.
Qed.

(** What a batch run leaves: it returns, every stored group is built
    from its own identifier, the keys are the requested identifiers found
    in the table, once each, and every identifier not found is reported. *)
Lemma create_peer_groups_spec (ids : list string) (output_summary : bool) :
  exists groups log,
    create_peer_groups_for_firm_funds self ids df min_score max_peers
                                      exclude_passive output_summary
      = (inr groups, log) /\
    groups_built self df min_score max_peers exclude_passive groups /\
    (forall k, dict_get k groups <> None <->
               In k ids /\ rows_of k df <> []) /\
    NoDup (map fst groups) /\
    (forall k, In k ids -> rows_of k df = [] -> In (WarnFundNotFound k) log).
Proof.
  destruct (create_peer_groups_returns self df min_score max_peers
              exclude_passive ids output_summary)
    as [groups [log [Hrun [Hbuilt _]]]].
  exists groups, log. split; [exact Hrun|]. split; [exact Hbuilt|].
  destruct (process_funds_keys ids ([], []))
    as [st [log0 [Hrun0 [Hkeys [Hnd Hlog]]]]].
  unfold create_peer_groups_for_firm_funds in Hrun.
  rewrite Hrun0 in Hrun. unfold bind, print, ret in Hrun.
  assert (Hg : groups = fst st /\ exists tail, log = log0 ++ tail).
  { destruct (output_summary && negb (Nat.eqb (List.length (snd st)) 0))%bool;
      inversion Hrun; split; try reflexivity; eexists; reflexivity. }
  destruct Hg as [-> [tail ->]].
  split; [|split].
  - intros k. rewrite dict_get_keys, Hkeys. simpl.
    split; [intros [[]|H]; exact H|auto].
  - apply Hnd. constructor.
  - intros k Hin Hrows. apply in_or_app. left. now apply Hlog.
Qed.

(** X12: the batch never raises.  It stores exactly one group for each
    requested identifier that occurs in the table, however often it is
    requested, none for the others, and prints a not-found warning for
    each of those. *)
Theorem create_peer_groups_skips_unknown (ids : list string)
    (output_summary : bool) :
  exists groups log,
    create_peer_groups_for_firm_funds self ids df min_score max_peers
                                      exclude_passive output_summary
      = (inr groups, log) /\
    (forall k, (exists g, dict_get k groups = Some g) <->
               In k ids /\ exists f, In f df /\ fund_id f = k) /\
    NoDup (map fst groups) /\
    (forall k, In k ids -> (forall f, In f df -> fund_id f <> k) ->
               In (WarnFundNotFound k) log).
Proof.
  destruct (create_peer_groups_spec ids output_summary)
    as [groups [log [Hrun [_ [Hkeys [Hnd Hlog]]]]]].
  exists groups, log. split; [exact Hrun|]. split; [|split; [exact Hnd|]].
  - intros k. rewrite <- rows_of_nonempty_iff, <- Hkeys.
    destruct (dict_get k groups) as [g|].
    + split; [discriminate|]. intros _. now exists g.
    + split; [intros [g Hg]; discriminate Hg|]. intros H. now destruct H.
  - intros k Hin Habs. apply Hlog; [exact Hin|]. now apply rows_of_nil_iff.
Qed.

(** X13: the group of a target does not depend on the rest of the batch: it
    is the group obtained by running the builder on that target alone. *)
Theorem peer_group_independent_of_batch (ids : list string)
    (summary1 summary2 : bool) (fid : string) (groups groups1 : Dict)
    (log log1 : list Message) :
  In fid ids ->
  create_peer_groups_for_firm_funds self ids df min_score max_peers
                                    exclude_passive summary1
    = (inr groups, log) ->
  create_peer_groups_for_firm_funds self [fid] df min_score max_peers
                                    exclude_passive summary2
    = (inr groups1, log1) ->
  dict_get fid groups = dict_get fid groups1.
Proof.
  intros Hin Hrun Hrun1.
  destruct (create_peer_groups_spec ids summary1)
    as [g0 [l0 [Hrun' [Hbuilt [Hkeys _]]]]].
  rewrite Hrun in Hrun'. inversion Hrun'; subst g0 l0.
  destruct (create_peer_groups_spec [fid] summary2)
    as [g1 [l1 [Hrun1' [Hbuilt1 [Hkeys1 _]]]]].
  rewrite Hrun1 in Hrun1'. inversion Hrun1'; subst g1 l1.
  destruct (dict_get fid groups) as [g|] eqn:Hg.
  - destruct (dict_get fid groups1) as [g'|] eqn:Hg'.
    + destruct (Hbuilt fid g Hg) as [t [o [rs [lg [Hrows [Hret ->]]]]]].
      destruct (Hbuilt1 fid g' Hg') as [t' [o' [rs' [lg' [Hrows' [Hret' ->]]]]]].
      rewrite Hrows in Hrows'. inversion Hrows'; subst t' o'.
      rewrite Hret in Hret'. inversion Hret'; subst rs' lg'.
      reflexivity.
    + exfalso. assert (Hk : dict_get fid groups <> None) by (rewrite Hg; discriminate).
      apply Hkeys in Hk. destruct Hk as [_ Hrows].
      assert (Hk1 : dict_get fid groups1 <> None).
      { apply Hkeys1. split; [now left|exact Hrows]. }
      now rewrite Hg' in Hk1.
  - destruct (dict_get fid groups1) as [g'|] eqn:Hg'; [|reflexivity].
    exfalso. assert (Hk1 : dict_get fid groups1 <> None) by (rewrite Hg'; discriminate).
    apply Hkeys1 in Hk1. destruct Hk1 as [_ Hrows].
    assert (Hk : dict_get fid groups <> None).
    { apply Hkeys. split; assumption. }
    now rewrite Hg in Hk.
Qed.

(** X14: in a stored group with peers, the category size is the number of
    scored candidates plus one, and the four score bands count every
    scored candidate once: both ignore the minimum score and the cap.
    The qualified peers are among the candidates and [peer_count] is
    their number. *)
Theorem peer_group_statistics (ids : list string) (output_summary : bool)
    (groups : Dict) (log : list Message) (fid : string)
    (name category : option string) (n : nat) (avg : Q)
    (peers : list PeerResult) (total : nat) (dist : ScoreDistribution) :
  create_peer_groups_for_firm_funds self ids df min_score max_peers
                                    exclude_passive output_summary
    = (inr groups, log) ->
  dict_get fid groups = Some (Peers name category n avg peers total dist) ->
  exists rs log',
    score_peers_for_fund self fid df exclude_passive = (inr rs, log') /\
    rs <> [] /\
    total = (List.length rs + 1)%nat /\
    (d_90_100 dist + d_80_89 dist + d_70_79 dist + d_below_70 dist
     = List.length rs)%nat /\
    n = List.length peers /\
    (n <= List.length rs)%nat /\
    (forall p, In p peers -> In p rs /\ (min_score <= peer_score p)%Q).
Proof.
  intros Hrun Hget.
  destruct (create_peer_groups_spec ids output_summary)
    as [g0 [l0 [Hrun' [Hbuilt _]]]].
  rewrite Hrun in Hrun'. inversion Hrun'; subst g0 l0.
  destruct (Hbuilt fid _ Hget) as [t [o [rs [lg [_ [Hret Hg]]]]]].
  symmetry in Hg. apply peer_group_of_Peers in Hg.
  destruct Hg as [Hne [Hpeers [Hn [Htotal [Hdist _]]]]].
  exists rs, lg. split; [exact Hret|]. split; [exact Hne|].
  split; [exact Htotal|].
  split; [rewrite Hdist; apply score_distribution_partition|].
  split; [exact Hn|].
  destruct (head_is_firstn max_peers (filter (qualifies min_score) rs))
    as [m Hm].
  rewrite Hm in Hpeers.
  assert (Hsub : forall p, In p peers ->
                           In p rs /\ (min_score <= peer_score p)%Q).
  { intros p Hp. rewrite Hpeers in Hp.
    assert (Hq : In p (filter (qualifies min_score) rs)).
    { rewrite <- (firstn_skipn m). apply in_or_app. now left. }
    apply filter_In in Hq. destruct Hq as [Hin Hq].
    split; [exact Hin|]. now apply Qle_bool_iff. }
  split; [|exact Hsub].
  rewrite Hn, Hpeers.
  apply Nat.le_trans with (List.length (filter (qualifies min_score) rs)).
  - rewrite length_firstn. apply Nat.le_min_r.
  - apply filter_length_le.
Qed.

(** X15: the average stored in a group is 0 when no peer qualifies; otherwise
    it lies between the lowest and the highest score of the stored
    peers, so it is at least the minimum score. *)
Theorem peer_group_average_bounds (ids : list string) (output_summary : bool)
    (groups : Dict) (log : list Message) (fid : string)
    (name category : option string) (n : nat) (avg : Q)
    (peers : list PeerResult) (total : nat) (dist : ScoreDistribution) :
  create_peer_groups_for_firm_funds self ids df min_score max_peers
                                    exclude_passive output_summary
    = (inr groups, log) ->
  dict_get fid groups = Some (Peers name category n avg peers total dist) ->
  (peers = [] -> avg = 0%Q) /\
  (forall p0 ps, peers = p0 :: ps ->
     (min_score <= avg)%Q /\
     (peer_score (last ps p0) <= avg)%Q /\
     (avg <= peer_score p0)%Q).
Proof.
  intros Hrun Hget.
  destruct (create_peer_groups_spec ids output_summary)
    as [g0 [l0 [Hrun' [Hbuilt _]]]].
  rewrite Hrun in Hrun'. inversion Hrun'; subst g0 l0.
  destruct (Hbuilt fid _ Hget) as [t [o [rs [lg [_ [Hret Hg]]]]]].
  symmetry in Hg. apply peer_group_of_Peers in Hg.
  destruct Hg as [_ [Hpeers [_ [_ [_ Havg]]]]].
  split; [intros E; now rewrite E in Havg|].
  intros p0 ps E. rewrite E in Havg.
  destruct (head_is_firstn max_peers (filter (qualifies min_score) rs))
    as [m Hm].
  rewrite Hm, E in Hpeers.
  assert (Hsorted : StronglySorted score_ge (p0 :: ps)).
  { rewrite Hpeers. apply StronglySorted_firstn, StronglySorted_filter.
    exact (score_peers_for_fund_sorted self fid df exclude_passive rs lg Hret). }
  assert (Hin : forall p, In p (p0 :: ps) ->
                  In p rs /\ (min_score <= peer_score p)%Q).
  { intros p Hp. rewrite Hpeers in Hp.
    assert (Hq : In p (filter (qualifies min_score) rs)).
    { rewrite <- (firstn_skipn m). apply in_or_app. now left. }
    apply filter_In in Hq. destruct Hq as [Hp' Hq].
    split; [exact Hp'|]. now apply Qle_bool_iff. }
  assert (Hhund : forall p, In p (p0 :: ps) ->
                    round2 (peer_score p) = peer_score p).
  { intros p Hp. destruct (Hin p Hp) as [Hprs _].
    destruct (score_peers_for_fund_inv _ _ _ _ _ _ Hret)
      as [tf [oth [_ [[_ [Hnil _]]|[cat [_ [Hperm _]]]]]]].
    - rewrite Hnil in Hprs. destruct Hprs.
    - apply (Permutation_in _ (Permutation_sym Hperm)) in Hprs.
      apply in_map_iff in Hprs. destruct Hprs as [f [<- _]].
      destruct (score_row_fields self tf cat f) as [_ [_ [_ [-> _]]]].
      unfold round2 at 2 3. apply round2_hundredths. }
  assert (Hb : forall x, In x (map peer_score (p0 :: ps)) ->
                 (peer_score (last ps p0) <= x <= peer_score p0)%Q).
  { intros x Hx. apply in_map_iff in Hx. destruct Hx as [p [<- Hp]].
    destruct (StronglySorted_last score_ge ps (fun a => Qle_refl _)
                p0 Hsorted p Hp) as [H1 H2].
    unfold score_ge in H1, H2. split; assumption. }
  assert (Hmean := mean_bounds (map peer_score (p0 :: ps)) _ _
                     ltac:(discriminate) Hb).
  destruct Hmean as [Hlo Hhi].
  apply round2_monotone in Hlo. apply round2_monotone in Hhi.
  rewrite Hhund in Hlo by apply last_In.
  rewrite Hhund in Hhi by now left.
  rewrite Havg. split; [|split; assumption].
  apply Qle_trans with (peer_score (last ps p0)); [|exact Hlo].
  apply (Hin (last ps p0)). apply last_In.
Qed.

End PeerGroupMore.

(** * Export of the peer groups *)

(** One row of the summary sheet. *)
Record SummaryRow : Type := {
  sr_fund_id : string;
  sr_fund_name : option string;
  sr_category : option string;
  sr_total_in_category : nat;
  sr_qualified_peers : nat;
  sr_avg_peer_score : Q
}.

Inductive SheetData : Type :=
| SummaryRows (rows : list SummaryRow)
| PeerRows (rows : list PeerResult).

(** What the export does, in order: the [to_excel] calls on the writer
    and the final [print]. *)
Inductive ExportEvent : Type :=
| ToExcel (sheet : string) (data : SheetData)
| PrintExported (output_file : string).

(** The sheet name of a fund: the identifier, cut to its first 20
    characters when it is longer, followed by "_peers". *)
Definition sheet_name (fid : string) : string :=
  if Nat.ltb 20 (String.length fid)
  then (substring 0 20 fid ++ "_peers")%string
  else (fid ++ "_peers")%string.

(** [data.get('category_total_funds', 0)] and [data.get('avg_peer_score',
    0)] fall back to 0 on the record of a target without peers. *)
Definition summary_row (kv : string * PeerGroup) : SummaryRow :=
  match snd kv with
  | NoPeers name category =>
      {| sr_fund_id := fst kv; sr_fund_name := name; sr_category := category;
         sr_total_in_category := 0; sr_qualified_peers := 0;
         sr_avg_peer_score := 0 |}
  | Peers name category n avg _ total _ =>
      {| sr_fund_id := fst kv; sr_fund_name := name; sr_category := category;
         sr_total_in_category := total; sr_qualified_peers := n;
         sr_avg_peer_score := avg |}
  end.

Definition peer_sheet (kv : string * PeerGroup) : list ExportEvent :=
  match group_peers (snd kv) with
  | [] => []
  | _ :: _ => [ToExcel (sheet_name (fst kv)) (PeerRows (group_peers (snd kv)))]
  end.

Definition export_peer_groups_to_excel (peer_groups : Dict)
    (output_file : string) : list ExportEvent :=
  ToExcel "Summary" (SummaryRows (map summary_row peer_groups))
  :: flat_map peer_sheet peer_groups
  ++ [PrintExported output_file].

Definition sheet_names (events : list ExportEvent) : list string :=
  flat_map (fun e => match e with
                     | ToExcel sheet _ => [sheet]
                     | PrintExported _ => []
                     end) events.

Lemma string_length_append (s1 s2 : string) :
  String.length (s1 ++ s2) = (String.length s1 + String.length s2)%nat.
Proof.
  induction s1 as [|c r IH]; simpl; [reflexivity|]. now rewrite IH.
Qed.

Lemma string_append_nil_r (s : string) : (s ++ "")%string = s.
Proof.
  induction s as [|c r IH]; simpl; [reflexivity|]. now rewrite IH.
Qed.

Lemma substring_0_length (n : nat) (s : string) :
  String.length (substring 0 n s) = Nat.min n (String.length s).
Proof.
  revert s. induction n as [|n IH]; intros s; [destruct s; reflexivity|].
  destruct s as [|c r]; simpl; [reflexivity|]. now rewrite IH.
Qed.

Lemma substring_0_append (p x : string) :
  substring 0 (String.length p) (p ++ x) = p.
Proof.
  induction p as [|c r IH]; simpl.
  - destruct x; reflexivity.
  - now rewrite IH.
Qed.

Lemma substring_0_prefix (n : nat) (s : string) :
  String.prefix (substring 0 n s) s = true.
Proof.
  revert s. induction n as [|n IH]; intros s.
  - destruct s; reflexivity.
  - destruct s as [|c r]; simpl; [reflexivity|].
    destruct (ascii_dec c c) as [_|Hne]; [apply IH|now destruct Hne].
Qed.

Lemma prefix_refl (s : string) : String.prefix s s = true.
Proof.
  induction s as [|c r IH]; simpl; [reflexivity|].
  destruct (ascii_dec c c) as [_|Hne]; [exact IH|now destruct Hne].
Qed.

Lemma string_append_inj_l (a b t : string) :
  (a ++ t = b ++ t)%string -> a = b.
Proof.
  revert b. induction a as [|c r IH]; intros b H.
  - destruct b as [|d b']; [reflexivity|exfalso].
    apply (f_equal String.length) in H.
    simpl in H. rewrite string_length_append in H. lia.
  - destruct b as [|d b']; [exfalso|].
    + apply (f_equal String.length) in H.
      simpl in H. rewrite string_length_append in H. lia.
    + simpl in H. inversion H; subst. f_equal. now apply IH.
Qed.

Lemma sheet_name_stem (fid : string) :
  exists stem,
    sheet_name fid = (stem ++ "_peers")%string /\
    String.prefix stem fid = true /\
    (String.length stem <= 20)%nat /\
    ((String.length fid <= 20)%nat -> stem = fid).
Proof.
  unfold sheet_name.
  destruct (Nat.ltb_spec 20 (String.length fid)) as [Hlong|Hshort].
  - exists (substring 0 20 fid). split; [reflexivity|].
    split; [apply substring_0_prefix|]. split; [|lia].
    rewrite substring_0_length. lia.
  - exists fid. split; [reflexivity|]. split; [apply prefix_refl|].
    split; [exact Hshort|reflexivity].
Qed.

Lemma sheet_name_not_summary (fid : string) :
  sheet_name fid <> "Summary"%string.
Proof.
  destruct (sheet_name_stem fid) as [stem [Hname _]].
  rewrite Hname. intros H.
  destruct stem as [|c [|d r]]; simpl in H; try discriminate H.
  inversion H as [[Hc Hd Hr]].
  apply (f_equal String.length) in Hr.
  rewrite string_length_append in Hr. simpl in Hr. lia.
Qed.

(** X16: every sheet name has at most 26 characters, within the 31 a
    spreadsheet allows; it is a prefix of the identifier followed by
    "_peers", and never the name of the summary sheet. *)
Theorem sheet_name_within_limit (fid : string) :
  (String.length (sheet_name fid) <= 26)%nat /\
  sheet_name fid <> "Summary"%string /\
  exists stem, sheet_name fid = (stem ++ "_peers")%string /\
               String.prefix stem fid = true.
Proof.
  destruct (sheet_name_stem fid) as [stem [Hname [Hpre [Hlen _]]]].
  split; [|split].
  - rewrite Hname, string_length_append. simpl. lia.
  - apply sheet_name_not_summary.
  - now exists stem.
Qed.

(** X17: identifiers are cut to 20 characters: all identifiers that start
    with the same 20 characters get the same sheet name. *)
Theorem sheet_name_collides_on_long_ids (p x y : string) :
  String.length p = 20%nat ->
  sheet_name (p ++ x) = (p ++ "_peers")%string /\
  sheet_name (p ++ x) = sheet_name (p ++ y).
Proof.
  intros Hp.
  assert (H : forall z, sheet_name (p ++ z) = (p ++ "_peers")%string).
  { intros z. unfold sheet_name. rewrite string_length_append, Hp.
    destruct (Nat.ltb_spec 20 (20 + String.length z)) as [Hlong|Hshort].
    - rewrite <- Hp at 1. now rewrite substring_0_append.
    - destruct z as [|c r]; [|simpl in Hshort; lia].
      now rewrite string_append_nil_r. }
  split; [apply H|]. now rewrite !H.
Qed.

Lemma sheet_name_collides_on_long_ids_witness :
  sheet_name "FIXED_INCOME_FUND_00_CLASS_A"
    = sheet_name "FIXED_INCOME_FUND_00_CLASS_B" /\
  "FIXED_INCOME_FUND_00_CLASS_A"%string <> "FIXED_INCOME_FUND_00_CLASS_B"%string.
Proof.
  split; [|discriminate].
  exact (proj2 (sheet_name_collides_on_long_ids
                  "FIXED_INCOME_FUND_00" "_CLASS_A" "_CLASS_B" eq_refl)).
Defined.

Lemma sheet_name_injective_short (a b : string) :
  (String.length a <= 20)%nat -> (String.length b <= 20)%nat ->
  sheet_name a = sheet_name b -> a = b.
Proof.
  intros Ha Hb H.
  destruct (sheet_name_stem a) as [sa [Hna [_ [_ Hsa]]]].
  destruct (sheet_name_stem b) as [sb [Hnb [_ [_ Hsb]]]].
  rewrite Hna, Hnb in H. apply string_append_inj_l in H.
  now rewrite <- (Hsa Ha), <- (Hsb Hb).
Qed.

Lemma sheet_names_export (d : Dict) (output_file : string) :
  sheet_names (export_peer_groups_to_excel d output_file)
    = "Summary"%string
      :: map (fun kv => sheet_name (fst kv))
             (filter (fun kv => match group_peers (snd kv) with
                                | [] => false
                                | _ :: _ => true
                                end) d).
Proof.
  unfold export_peer_groups_to_excel, sheet_names. simpl. f_equal.
  rewrite flat_map_app. simpl. rewrite app_nil_r.
  induction d as [|kv rest IH]; simpl; [reflexivity|].
  rewrite flat_map_app, IH. unfold peer_sheet.
  destruct (group_peers (snd kv)); reflexivity.
Qed.

(** X18: when no identifier is longer than 20 characters, the export writes
    every sheet under a name of its own: the summary sheet and one sheet
    for each group that has at least one peer. *)
Theorem export_sheet_names_distinct (d : Dict) (output_file : string) :
  NoDup (map fst d) ->
  (forall k, In k (map fst d) -> (String.length k <= 20)%nat) ->
  NoDup (sheet_names (export_peer_groups_to_excel d output_file)) /\
  (forall k g, In (k, g) d ->
     (In (sheet_name k) (sheet_names (export_peer_groups_to_excel d output_file))
      <-> group_peers g <> [])).
Proof.
  intros Hnd Hshort. rewrite sheet_names_export.
  set (has_peers := fun kv : string * PeerGroup =>
                      match group_peers (snd kv) with
                      | [] => false
                      | _ :: _ => true
                      end).
  assert (Hin : forall k, In k (map (fun kv => sheet_name (fst kv))
                                    (filter has_peers d)) ->
                exists kv, In kv d /\ has_peers kv = true /\
                           k = sheet_name (fst kv)).
  { intros k Hk. apply in_map_iff in Hk. destruct Hk as [kv [<- Hkv]].
    apply filter_In in Hkv. destruct Hkv as [H1 H2]. now exists kv. }
  split.
  - constructor.
    + intros Habs. destruct (Hin _ Habs) as [kv [_ [_ Heq]]].
      symmetry in Heq. now apply sheet_name_not_summary in Heq.
    + clear Hin. induction d as [|[k g] rest IH]; simpl; [constructor|].
      inversion Hnd as [|? ? Hnotin Hrest]; subst.
      assert (IH' : NoDup (map (fun kv => sheet_name (fst kv))
                               (filter has_peers rest))).
      { apply IH; [exact Hrest|]. intros k' Hk'. apply Hshort. now right. }
      destruct (has_peers (k, g)); [|exact IH'].
      simpl. constructor; [|exact IH'].
      intros Habs. apply in_map_iff in Habs.
      destruct Habs as [[k' g'] [Heq Hkv]]. simpl in Heq.
      apply filter_In in Hkv. destruct Hkv as [Hkv _].
      assert (Hk' : In k' (map fst rest)).
      { apply in_map_iff. now exists (k', g'). }
      apply sheet_name_injective_short in Heq.
      * subst k'. now destruct Hnotin.
      * apply Hshort. now right.
      * apply Hshort. now left.
  - intros k g Hkg. split.
    + intros [Habs|Hk].
      * symmetry in Habs. now apply sheet_name_not_summary in Habs.
      * destruct (Hin _ Hk) as [[k' g'] [Hkv [Hhas Heq]]]. simpl in Heq.
        assert (Hk' : In k' (map fst d)).
        { apply in_map_iff. now exists (k', g'). }
        assert (Hk0 : In k (map fst d)).
        { apply in_map_iff. now exists (k, g). }
        apply sheet_name_injective_short in Heq; try now apply Hshort.
        subst k'.
        assert (g' = g).
        { clear - Hnd Hkv Hkg. induction d as [|[k0 g0] rest IH];
            [destruct Hkv|].
          inversion Hnd as [|? ? Hnotin Hrest]; subst.
          destruct Hkv as [E1|H1], Hkg as [E2|H2].
          - congruence.
          - inversion E1; subst. destruct Hnotin.
            apply in_map_iff. now exists (k, g).
          - inversion E2; subst. destruct Hnotin.
            apply in_map_iff. now exists (k, g').
          - now apply IH. }
        subst g'. unfold has_peers in Hhas. simpl in Hhas.
        destruct (group_peers g); [discriminate Hhas|discriminate].
    + intros Hne. right. apply in_map_iff. exists (k, g).
      split; [reflexivity|]. apply filter_In. split; [exact Hkg|].
      unfold has_peers. simpl. destruct (group_peers g);
        [now destruct Hne|reflexivity].
Qed.

(** * Further properties of the constructor *)

Lemma init_returns_inv (cw pw fw rw sw : Q) (self : FIPeerScoring)
    (log : list Message) :
  let w := mk_weights cw pw fw rw sw in
  init cw pw fw rw sw = (inr self, log) ->
  ((Qabs (sum_weights w - 100) <= 1 # 100)%Q /\
   self = {| weights := w |} /\ log = []) \/
  ((1 # 100 < Qabs (sum_weights w - 100))%Q /\ ~ (sum_weights w == 0)%Q /\
   self = {| weights := rescaled w (sum_weights w) |} /\
   log = [WarnWeightsNormalizing (sum_weights w)]).
Proof.
  intros w Hinit.
  destruct (Qlt_le_dec (1 # 100) (Qabs (sum_weights w - 100))) as [Hfar|Hnear].
  - right.
    assert (Hnz : ~ (sum_weights w == 0)%Q).
    { intros Hz. rewrite (init_far cw pw fw rw sw Hfar) in Hinit.
      fold w in Hinit. rewrite (normalize_loop_zero _ _ Hz) in Hinit.
      discriminate Hinit. }
    rewrite (init_rescales cw pw fw rw sw Hfar Hnz) in Hinit.
    inversion Hinit. auto.
  - left. rewrite (init_near cw pw fw rw sw Hnear) in Hinit.
    inversion Hinit. auto.
Qed.

Lemma Qabs_small_of_zero (x : Q) : (x == 0)%Q -> (Qabs x <= 1 # 100)%Q.
Proof. intros E. rewrite E. discriminate. Qed.

(** X19: constructing a scorer from the weights of a constructed scorer gives
    the same scorer and no warning: normalised weights are not rescaled
    again. *)
Theorem init_idempotent (cw pw fw rw sw : Q) (self : FIPeerScoring)
    (log : list Message) :
  init cw pw fw rw sw = (inr self, log) ->
  init (w_currency (weights self)) (w_passive (weights self))
       (w_fee (weights self)) (w_region (weights self))
       (w_sector (weights self))
    = (inr self, []).
Proof.
  intros Hinit.
  destruct (init_returns_inv _ _ _ _ _ _ _ Hinit)
    as [[Hnear [-> _]]|[_ [Hnz [-> _]]]].
  - simpl. now apply init_near.
  - simpl. apply init_near. apply Qabs_small_of_zero.
    pose proof (rescaled_sum (mk_weights cw pw fw rw sw) Hnz) as Hsum.
    unfold rescaled in Hsum. rewrite Hsum. reflexivity.
Qed.

Lemma init_idempotent_witness :
  exists self log,
    init 40 40 40 40 40 = (inr self, log) /\
    log <> [] /\
    init (w_currency (weights self)) (w_passive (weights self))
         (w_fee (weights self)) (w_region (weights self))
         (w_sector (weights self))
      = (inr self, []).
Proof.
  eexists _, _. split; [reflexivity|]. split; [discriminate|].
  apply (init_idempotent 40 40 40 40 40 _ _ eq_refl).
Defined.

Lemma rescaled_nonneg (w : Weights) :
  nonneg_weights w -> ~ (sum_weights w == 0)%Q ->
  nonneg_weights (rescaled w (sum_weights w)).
Proof.
  intros Hnn Hnz.
  assert (Hpos : (0 <= sum_weights w)%Q).
  { rewrite sum_weights_unfold.
    pose proof (Hnn Currency). pose proof (Hnn Passive). pose proof (Hnn Fee).
    pose proof (Hnn Region). pose proof (Hnn Sector). simpl in *. lra. }
  assert (Hinv : (0 <= / sum_weights w)%Q) by now apply Qinv_le_0_compat.
  intros c. pose proof (Hnn c) as Hc.
  destruct c; simpl in *; unfold Qdiv;
    (apply Qmult_le_0_compat; [now apply Qmult_le_0_compat|discriminate]).
Qed.

(** X20: a scorer constructed from non-negative weights has non-negative
    weights whose sum is within 0.01 of 100, so each of its overall
    scores lies between 0 and 100.01; when the constructor had to
    rescale, the sum is 100 and the scores are at most 100. *)
Theorem constructed_scorer_bounds (cw pw fw rw sw : Q)
    (self : FIPeerScoring) (log : list Message) :
  nonneg_weights (mk_weights cw pw fw rw sw) ->
  init cw pw fw rw sw = (inr self, log) ->
  nonneg_weights (weights self) /\
  (Qabs (sum_weights (weights self) - 100) <= 1 # 100)%Q /\
  (forall fund1 fund2,
     (0 <= fst (calculate_peer_score self fund1 fund2))%Q /\
     (fst (calculate_peer_score self fund1 fund2) <= 100 + (1 # 100))%Q /\
     (log <> [] ->
      (fst (calculate_peer_score self fund1 fund2) <= 100)%Q)).
Proof.
  intros Hnn Hinit.
  assert (H : nonneg_weights (weights self) /\
              (Qabs (sum_weights (weights self) - 100) <= 1 # 100)%Q /\
              (log <> [] -> (sum_weights (weights self) == 100)%Q)).
  { destruct (init_returns_inv _ _ _ _ _ _ _ Hinit)
      as [[Hnear [-> ->]]|[_ [Hnz [-> _]]]].
    - split; [exact Hnn|]. split; [exact Hnear|].
      intros Habs. now destruct Habs.
    - pose proof (rescaled_sum (mk_weights cw pw fw rw sw) Hnz) as Hsum.
      split; [now apply rescaled_nonneg|].
      split; [|intros _; exact Hsum].
      apply Qabs_small_of_zero. simpl. rewrite Hsum. reflexivity. }
  destruct H as [Hnn' [Hsum Hexact]].
  split; [exact Hnn'|]. split; [exact Hsum|].
  intros fund1 fund2.
  destruct (weighted_sum_range (weights self)
              (snd (calculate_peer_score self fund1 fund2)) Hnn'
              (calculate_peer_score_scores_in_range self fund1 fund2))
    as [Hlo Hhi].
  apply Qabs_Qle_condition in Hsum. destruct Hsum as [_ Hup].
  simpl in *. split; [exact Hlo|]. split; [lra|].
  intros Hlog. rewrite (Hexact Hlog) in Hhi. exact Hhi.
Qed.

Lemma constructed_scorer_bounds_witness :
  exists self log,
    init 40 40 40 40 40 = (inr self, log) /\
    nonneg_weights (weights self) /\
    (0 <= fst (calculate_peer_score self fund_A fund_B) <= 100)%Q.
Proof.
  eexists _, _. split; [reflexivity|].
  destruct (constructed_scorer_bounds 40 40 40 40 40 _ _
              ltac:(intros [| | | |]; simpl; discriminate) eq_refl)
    as [Hnn [_ Hb]].
  split; [exact Hnn|].
  destruct (Hb fund_A fund_B) as [Hlo [_ Hhi]].
  split; [exact Hlo|]. apply Hhi. discriminate.
Defined.

(** * The sample table of [example_usage] *)

Definition sample_fund (fid name category cur : string) (passive : bool)
    (fee : Q) (reg sec : string) : Fund :=
  {| fund_id := fid; fund_name := Some name;
     morningstar_category := Some category;
     currency := Some cur; is_passive := Some passive; fee_band := Some fee;
     region := Some reg; primary_sector := Some sec |}.

Definition short_term : string := "US Fund Short-Term Bond".
Definition corporate_bond : string := "US Fund Corporate Bond".

Definition funds_data : list Fund :=
  [ sample_fund "FIRM001" "Our Bond Fund A" short_term "USD" false 2
                "developed" "corporate";
    sample_fund "FIRM002" "Our Bond Fund B" corporate_bond "USD" false 3
                "developed" "corporate";
    sample_fund "COMP001" "Competitor Fund 1" short_term "USD" false 2
                "developed" "corporate";
    sample_fund "COMP002" "Competitor Fund 2" short_term "EUR" true 1
                "developed" "government";
    sample_fund "COMP003" "Competitor Fund 3" corporate_bond "USD" false 3
                "emerging" "corporate";
    sample_fund "COMP004" "Competitor Fund 4" corporate_bond "USD" true 2
                "developed" "mixed";
    sample_fund "COMP005" "Competitor Fund 5" short_term "USD" false 4
                "developed" "corporate";
    sample_fund "COMP006" "Competitor Fund 6" corporate_bond "GBP" false 3
                "developed" "corporate";
    sample_fund "COMP007" "Competitor Fund 7" short_term "USD" true 1
                "developed" "government";
    sample_fund "COMP008" "Competitor Fund 8" corporate_bond "USD" false 5
                "other" "high yield" ].

Definition firm_fund_ids : list string := ["FIRM001"; "FIRM002"]%string.

(** A target whose passive flag is missing, next to a passive fund. *)
Definition fund_TN : Fund :=
  {| fund_id := "TN"; fund_name := Some "TN"%string;
     morningstar_category := Some "X"%string;
     currency := Some "USD"%string; is_passive := None;
     fee_band := Some 2%Q; region := Some "developed"%string;
     primary_sector := Some "corporate"%string |}.

Definition missing_flag_universe : list Fund := [fund_TN; fund_90; fund_55].

Lemma score_peers_for_fund_rows_from_table_witness :
  exists rs log,
    score_peers_for_fund default_scorer "FIRM001" funds_data true
      = (inr rs, log) /\
    map r_fund_id rs = ["COMP001"; "COMP005"]%string /\
    forall r, In r rs -> r_fund_id r <> "FIRM001"%string.
Proof.
  eexists _, _. split; [vm_compute; reflexivity|].
  split; [reflexivity|].
  destruct (score_peers_for_fund_rows_from_table default_scorer "FIRM001"
              funds_data true _ _ eq_refl)
    as [target_fund [others [_ [Hrows _]]]].
  intros r Hr. exact (proj1 (Hrows r Hr)).
Defined.

Lemma score_peers_for_fund_empty_iff_warned_witness :
  (exists rs log,
     score_peers_for_fund default_scorer "FIRM002" funds_data true
       = (inr rs, log) /\ rs <> [] /\ log = []) /\
  (exists log,
     score_peers_for_fund default_scorer "T" [fund_90; fund_T] true
       = (inr [], log) /\ log = [NoComparableFunds "X"]).
Proof.
  split.
  - eexists _, _. split; [vm_compute; reflexivity|].
    destruct (score_peers_for_fund_empty_iff_warned default_scorer "FIRM002"
                funds_data true _ _ eq_refl) as [[Habs _]|H];
      [discriminate Habs|exact H].
  - eexists. split; [vm_compute; reflexivity|].
    destruct (score_peers_for_fund_empty_iff_warned default_scorer "T"
                [fund_90; fund_T] true _ _ eq_refl) as [[_ H]|[Habs _]];
      [reflexivity|now destruct Habs].
Defined.

Lemma score_peers_for_fund_unfiltered_witness :
  exists rs log,
    score_peers_for_fund default_scorer "FIRM001" funds_data false
      = (inr rs, log) /\
    map r_fund_id rs = ["COMP001"; "COMP005"; "COMP007"; "COMP002"]%string /\
    In (score_row default_scorer
          (sample_fund "FIRM001" "Our Bond Fund A" short_term "USD" false 2
                       "developed" "corporate")
          short_term
          (sample_fund "COMP002" "Competitor Fund 2" short_term "EUR" true 1
                       "developed" "government")) rs.
Proof.
  destruct (score_peers_for_fund_unfiltered default_scorer "FIRM001"
              funds_data false _ _ short_term eq_refl eq_refl
              (or_introl eq_refl))
    as [rs [log [Hret Hall]]].
  exists rs, log. split; [exact Hret|]. split.
  - vm_compute in Hret. inversion Hret. reflexivity.
  - apply Hall; [simpl; auto 10|reflexivity|discriminate].
Defined.

Lemma score_peers_for_fund_missing_flag_unfiltered_witness :
  exists rs log,
    score_peers_for_fund default_scorer "TN" missing_flag_universe true
      = (inr rs, log) /\
    map r_fund_id rs = ["C90"; "C55"]%string /\
    In (score_row default_scorer fund_TN "X" fund_90) rs.
Proof.
  destruct (score_peers_for_fund_missing_flag_unfiltered default_scorer "TN"
              missing_flag_universe fund_TN [] "X" eq_refl eq_refl eq_refl)
    as [_ [rs [log [Hret Hall]]]].
  exists rs, log. split; [exact Hret|]. split.
  - vm_compute in Hret. inversion Hret. reflexivity.
  - apply Hall; [simpl; auto|reflexivity|discriminate|reflexivity].
Defined.

Lemma peer_score_rounds_overall_witness :
  exists rs log,
    score_peers_for_fund default_scorer "FIRM002" funds_data true
      = (inr rs, log) /\
    map peer_score rs = [8400 # 100; 7000 # 100; 6950 # 100]%Q /\
    forall r, In r rs -> (0 <= peer_score r <= 100)%Q.
Proof.
  eexists _, _. split; [vm_compute; reflexivity|].
  split; [reflexivity|].
  destruct (peer_score_rounds_overall default_scorer "FIRM002" funds_data
              true _ _ eq_refl) as [target_fund [others [_ [Hrows _]]]].
  intros r Hr. destruct (Hrows r Hr) as [f [_ [_ [_ [_ Hrange]]]]].
  apply Hrange; [exact default_weights_nonneg|reflexivity].
Defined.

(** The run of [example_usage]: minimum score 60, at most 10 peers. *)
Definition example_groups : M Dict :=
  create_peer_groups_for_firm_funds default_scorer firm_fund_ids funds_data
                                    60 10 true true.

Lemma peer_group_independent_of_batch_witness :
  exists groups log groups1 log1,
    example_groups = (inr groups, log) /\
    create_peer_groups_for_firm_funds default_scorer ["FIRM002"%string]
                                      funds_data 60 10 true false
      = (inr groups1, log1) /\
    dict_get "FIRM002" groups = dict_get "FIRM002" groups1 /\
    dict_get "FIRM002" groups <> None.
Proof.
  eexists _, _, _, _.
  split; [vm_compute; reflexivity|]. split; [vm_compute; reflexivity|].
  split; [|discriminate].
  eapply (peer_group_independent_of_batch default_scorer funds_data 60 10 true
            firm_fund_ids true false "FIRM002").
  - simpl. auto.
  - vm_compute; reflexivity.
  - vm_compute; reflexivity.
Defined.

Lemma peer_group_statistics_witness :
  exists groups log name category n avg peers total dist,
    example_groups = (inr groups, log) /\
    dict_get "FIRM002" groups
      = Some (Peers name category n avg peers total dist) /\
    n = 3%nat /\ total = 4%nat /\
    (d_90_100 dist + d_80_89 dist + d_70_79 dist + d_below_70 dist = 3)%nat.
Proof.
  destruct example_groups as [[e|groups] log] eqn:Hrun;
    [vm_compute in Hrun; discriminate Hrun|].
  destruct (dict_get "FIRM002" groups)
    as [[nm ct|name category n avg peers total dist]|] eqn:Hget;
    try (vm_compute in Hrun; inversion Hrun; subst groups;
         vm_compute in Hget; discriminate Hget).
  destruct (peer_group_statistics default_scorer funds_data 60 10 true
              firm_fund_ids true groups log "FIRM002" name category n avg
              peers total dist Hrun Hget)
    as [rs [log' [Hret [_ [Htotal [Hdist [Hn _]]]]]]].
  exists groups, log, name, category, n, avg, peers, total, dist.
  split; [reflexivity|]. split; [exact Hget|].
  assert (Hlen : List.length rs = 3%nat).
  { vm_compute in Hret. inversion Hret. reflexivity. }
  rewrite Hlen in Htotal, Hdist.
  split; [|split; assumption].
  rewrite Hn. vm_compute in Hrun. inversion Hrun; subst groups.
  vm_compute in Hget. inversion Hget. reflexivity.
Defined.

Lemma peer_group_average_bounds_witness :
  exists groups log name category n avg peers total dist,
    example_groups = (inr groups, log) /\
    dict_get "FIRM001" groups
      = Some (Peers name category n avg peers total dist) /\
    map peer_score peers = [10000 # 100; 8750 # 100]%Q /\
    avg = (9375 # 100)%Q /\
    (60 <= avg)%Q /\ (avg <= 10000 # 100)%Q.
Proof.
  destruct example_groups as [[e|groups] log] eqn:Hrun;
    [vm_compute in Hrun; discriminate Hrun|].
  destruct (dict_get "FIRM001" groups)
    as [[nm ct|name category n avg peers total dist]|] eqn:Hget;
    try (vm_compute in Hrun; inversion Hrun; subst groups;
         vm_compute in Hget; discriminate Hget).
  destruct (peer_group_average_bounds default_scorer funds_data 60 10 true
              firm_fund_ids true groups log "FIRM001" name category n avg
              peers total dist Hrun Hget)
    as [_ Hb].
  exists groups, log, name, category, n, avg, peers, total, dist.
  split; [reflexivity|]. split; [exact Hget|].
  assert (Hpeers : map peer_score peers = [10000 # 100; 8750 # 100]%Q
                   /\ avg = (9375 # 100)%Q).
  { vm_compute in Hrun. inversion Hrun; subst groups.
    vm_compute in Hget. inversion Hget. split; reflexivity. }
  destruct Hpeers as [Hp Havg].
  split; [exact Hp|]. split; [exact Havg|].
  destruct peers as [|p0 ps]; [discriminate Hp|].
  destruct (Hb p0 ps eq_refl) as [Hmin [_ Hmax]].
  split; [exact Hmin|].
  assert (E : peer_score p0 = (10000 # 100)%Q) by (simpl in Hp; congruence).
  rewrite E in Hmax. exact Hmax.
Defined.

Lemma export_sheet_names_distinct_witness :
  exists groups log,
    example_groups = (inr groups, log) /\
    sheet_names (export_peer_groups_to_excel groups "peer_groups.xlsx")
      = ["Summary"; "FIRM001_peers"; "FIRM002_peers"]%string /\
    NoDup (sheet_names (export_peer_groups_to_excel groups "peer_groups.xlsx")).
Proof.
  eexists _, _. split; [vm_compute; reflexivity|].
  split; [reflexivity|].
  apply export_sheet_names_distinct.
  - simpl. repeat constructor; simpl; intuition discriminate.
  - intros k Hk. simpl in Hk.
    destruct Hk as [<-|[<-|[]]]; simpl; lia.
Defined.
